(** * Git provider of the builders package: clone operations and the
      SSH repository-path parser of [utils/providers/git.ts].

    JavaScript strings are sequences of UTF-16 code units; they are modelled
    as lists of code-unit values.  The regular expressions of the module are
    run by a backtracking matcher written after the semantics of ECMAScript
    [RegExp] (continuation matchers over a state made of an end index and
    the captures). *)

From Stdlib Require Import List NArith Arith Bool Lia String Ascii.
From Stdlib Require Import DecimalN DecimalFacts.
Import ListNotations.
Open Scope N_scope.

(* ================================================================== *)
(** ** JavaScript strings *)

Definition jsstring := list N.

Fixpoint str (s : string) : jsstring :=
  match s with
  | EmptyString => []
  | String a t => N_of_ascii a :: str t
  end.

Fixpoint jsstring_eqb (a b : jsstring) : bool :=
  match a, b with
  | [], [] => true
  | x :: a', y :: b' => (x =? y) && jsstring_eqb a' b'
  | _, _ => false
  end.

(** The two emoji of the log lines are single code units. *)
Definition check_mark : jsstring := [9989].   (* U+2705 *)
Definition cross_mark : jsstring := [10060].  (* U+274C *)

(** A value of type [string | null | undefined]. *)
Inductive maybe :=
| Undefined
| Null
| Str (s : jsstring).

(** JavaScript truthiness of such a value: the empty string is falsy. *)
Definition truthy (v : maybe) : bool :=
  match v with
  | Str (_ :: _) => true
  | _ => false
  end.

(** [`${v}`] in a template literal. *)
Definition tpl (v : maybe) : jsstring :=
  match v with
  | Undefined => str "undefined"
  | Null => str "null"
  | Str s => s
  end.

(** JavaScript numbers, as far as the module produces them: [Number] is
    applied to the text of the [port] group or to the literal 22. *)
Inductive number :=
| NaN
| Int (n : N).

Definition digit_of (c : N) : option (Decimal.uint -> Decimal.uint) :=
  match c with
  | 48 => Some Decimal.D0 | 49 => Some Decimal.D1 | 50 => Some Decimal.D2
  | 51 => Some Decimal.D3 | 52 => Some Decimal.D4 | 53 => Some Decimal.D5
  | 54 => Some Decimal.D6 | 55 => Some Decimal.D7 | 56 => Some Decimal.D8
  | 57 => Some Decimal.D9 | _ => None
  end.

Fixpoint uint_of_digits (s : jsstring) : option Decimal.uint :=
  match s with
  | [] => Some Decimal.Nil
  | c :: t =>
      match digit_of c, uint_of_digits t with
      | Some d, Some u => Some (d u)
      | _, _ => None
      end
  end.

Fixpoint digits_of_uint (u : Decimal.uint) : jsstring :=
  match u with
  | Decimal.Nil => []
  | Decimal.D0 u => 48 :: digits_of_uint u
  | Decimal.D1 u => 49 :: digits_of_uint u
  | Decimal.D2 u => 50 :: digits_of_uint u
  | Decimal.D3 u => 51 :: digits_of_uint u
  | Decimal.D4 u => 52 :: digits_of_uint u
  | Decimal.D5 u => 53 :: digits_of_uint u
  | Decimal.D6 u => 54 :: digits_of_uint u
  | Decimal.D7 u => 55 :: digits_of_uint u
  | Decimal.D8 u => 56 :: digits_of_uint u
  | Decimal.D9 u => 57 :: digits_of_uint u
  end.

(** [Number(s)] on a string of decimal digits (the empty string gives 0);
    any other text is not a numeric literal of the shape the module can
    pass, and gives [NaN] here. *)
Definition Number (s : jsstring) : number :=
  match uint_of_digits s with
  | Some u => Int (N.of_uint u)
  | None => NaN
  end.

(** [String(n)], which a template literal applies to a number. *)
Definition String_of_number (n : number) : jsstring :=
  match n with
  | NaN => str "NaN"
  | Int n => digits_of_uint (N.to_uint n)
  end.

(* ================================================================== *)
(** ** Regular expressions *)

Module RegExp.

(** The named groups of the expressions of this module. *)
Inductive gname := Gproto | Guser | Gdomain | Gport | Gowner | Grepo.

Record groups := mkGroups {
  g_proto : option jsstring;
  g_user : option jsstring;
  g_domain : option jsstring;
  g_port : option jsstring;
  g_owner : option jsstring;
  g_repo : option jsstring
}.

Definition no_groups : groups := mkGroups None None None None None None.

Definition set_group (g : gname) (v : option jsstring) (c : groups) : groups :=
  match g with
  | Gproto => mkGroups v (g_user c) (g_domain c) (g_port c) (g_owner c) (g_repo c)
  | Guser => mkGroups (g_proto c) v (g_domain c) (g_port c) (g_owner c) (g_repo c)
  | Gdomain => mkGroups (g_proto c) (g_user c) v (g_port c) (g_owner c) (g_repo c)
  | Gport => mkGroups (g_proto c) (g_user c) (g_domain c) v (g_owner c) (g_repo c)
  | Gowner => mkGroups (g_proto c) (g_user c) (g_domain c) (g_port c) v (g_repo c)
  | Grepo => mkGroups (g_proto c) (g_user c) (g_domain c) (g_port c) (g_owner c) v
  end.

Definition get_group (g : gname) (c : groups) : option jsstring :=
  match g with
  | Gproto => g_proto c
  | Guser => g_user c
  | Gdomain => g_domain c
  | Gport => g_port c
  | Gowner => g_owner c
  | Grepo => g_repo c
  end.

(** Greedy quantifiers only: the module uses no lazy one. *)
Inductive regex :=
| Empty
| Chars (p : N -> bool)
| Cat (r1 r2 : regex)
| Or (r1 r2 : regex)
| Quant (lo : nat) (hi : option nat) (r : regex)
| Named (g : gname) (r : regex)
| NotAhead (r : regex)
| Start
| End.

Fixpoint groups_in (r : regex) : list gname :=
  match r with
  | Empty | Chars _ | Start | End => []
  | Cat a b | Or a b => groups_in a ++ groups_in b
  | Quant _ _ a => groups_in a
  | Named g a => g :: groups_in a
  | NotAhead a => groups_in a
  end.

(** A match state: the end index, the input from that index on, and the
    captures. *)
Record state := mkState {
  endIndex : nat;
  rest : jsstring;
  captures : groups
}.

Definition cont := state -> option state.
Definition matcher := cont -> state -> option state.

Definition clear_groups (gs : list gname) (x : state) : state :=
  mkState (endIndex x) (rest x)
    (fold_right (fun g c => set_group g None c) (captures x) gs).

Definition capture (g : gname) (x y : state) : state :=
  mkState (endIndex y) (rest y)
    (set_group g (Some (firstn (endIndex y - endIndex x) (rest x))) (captures y)).

(** RepeatMatcher of the language specification, greedy case.  The fuel
    bounds the number of iterations: an iteration that is not required
    ([lo = 0]) must move the end index. *)
Fixpoint RepeatMatcher (fuel : nat) (ma : matcher) (gs : list gname)
    (lo : nat) (hi : option nat) (c : cont) (x : state) : option state :=
  match fuel with
  | O => None
  | S fuel' =>
      match hi with
      | Some O => c x
      | _ =>
          let d := fun y =>
            if Nat.eqb lo 0 && Nat.eqb (endIndex y) (endIndex x) then None
            else RepeatMatcher fuel' ma gs (Nat.pred lo) (option_map Nat.pred hi) c y in
          let xr := clear_groups gs x in
          if Nat.eqb lo 0 then
            match ma d xr with
            | Some z => Some z
            | None => c x
            end
          else ma d xr
      end
  end.

Fixpoint m (r : regex) (c : cont) (x : state) {struct r} : option state :=
  match r with
  | Empty => c x
  | Chars p =>
      match rest x with
      | ch :: tl =>
          if p ch then c (mkState (S (endIndex x)) tl (captures x)) else None
      | [] => None
      end
  | Cat a b => m a (m b c) x
  | Or a b =>
      match m a c x with
      | Some z => Some z
      | None => m b c x
      end
  | Quant lo hi a =>
      RepeatMatcher (S (S (List.length (rest x) + lo))) (m a) (groups_in a) lo hi c x
  | Named g a => m a (fun y => c (capture g x y)) x
  | NotAhead a =>
      match m a Some x with
      | Some _ => None
      | None => c x
      end
  | Start => if Nat.eqb (endIndex x) 0 then c x else None
  | End =>
      match rest x with
      | [] => c x
      | _ :: _ => None
      end
  end.

(** [RegExp.prototype.exec] without the global or sticky flag: the match
    is tried at index 0, then at each later index. *)
Fixpoint exec_from (r : regex) (i : nat) (s : jsstring) : option state :=
  match m r Some (mkState i s no_groups) with
  | Some z => Some z
  | None =>
      match s with
      | [] => None
      | _ :: tl => exec_from r (S i) tl
      end
  end.

Definition exec (r : regex) (s : jsstring) : option state := exec_from r 0%nat s.

(** [regex.test(s)]. *)
Definition test (r : regex) (s : jsstring) : bool :=
  match exec r s with
  | Some _ => true
  | None => false
  end.

(** *** Character sets *)

(** Canonicalize, for the ignore-case flag without the unicode flag: the
    character is upper-cased, and a character outside ASCII is never mapped
    into ASCII.  Every pattern character of this module is ASCII, so only
    the ASCII letters are folded here. *)
Definition Canonicalize (ch : N) : N :=
  if (97 <=? ch) && (ch <=? 122) then ch - 32 else ch.

(** Membership of [ch] in the set [A] under the ignore-case flag: some
    member of [A] has the canonical form of [ch]. *)
Definition in_set_i (A : N -> bool) (ch : N) : bool :=
  let cu := Canonicalize ch in
  A cu || ((65 <=? cu) && (cu <=? 90) && A (cu + 32)).

Definition class_i (A : N -> bool) : regex := Chars (in_set_i A).
Definition not_class_i (A : N -> bool) : regex :=
  Chars (fun ch => negb (in_set_i A ch)).

Definition range (a b : N) (ch : N) : bool := (a <=? ch) && (ch <=? b).
Definition one (a : N) (ch : N) : bool := ch =? a.
Definition union (A B : N -> bool) (ch : N) : bool := A ch || B ch.

(** [\s]: WhiteSpace and LineTerminator code points. *)
Definition white_space (ch : N) : bool :=
  range 9 13 ch || one 32 ch || one 160 ch || one 5760 ch
  || range 8192 8202 ch || one 8232 ch || one 8233 ch || one 8239 ch
  || one 8287 ch || one 12288 ch || one 65279 ch.

(** [.] without the dotAll flag: anything but a line terminator. *)
Definition line_terminator (ch : N) : bool :=
  one 10 ch || one 13 ch || one 8232 ch || one 8233 ch.

Definition any_char : regex := Chars (fun ch => negb (line_terminator ch)).

(** A pattern character, under the ignore-case flag. *)
Definition chr (a : string) : regex :=
  match str a with
  | [c] => class_i (one c)
  | _ => Chars (fun _ => false)
  end.

Fixpoint cat (rs : list regex) : regex :=
  match rs with
  | [] => Empty
  | [r] => r
  | r :: rs' => Cat r (cat rs')
  end.

Definition star (r : regex) : regex := Quant 0 None r.
Definition plus (r : regex) : regex := Quant 1 None r.
Definition opt (r : regex) : regex := Quant 0 (Some 1%nat) r.

End RegExp.

Import RegExp.

(* ================================================================== *)
(** ** sanitizeRepoPathSSH *)

(** The character sets of [SSH_PATH_RE]. *)
Definition set_az : N -> bool := range 97 122.
Definition set_az_ : N -> bool := union (range 97 122) (one 95).
Definition set_az09_dash : N -> bool :=
  union (range 97 122) (union (range 48 57) (union (one 95) (one 45))).
Definition set_digit : N -> bool := range 48 57.
(** [\s\/\?#:] *)
Definition set_delim : N -> bool :=
  union white_space (union (one 47) (union (one 63) (union (one 35) (one 58)))).
(** [\/:] *)
Definition set_sep : N -> bool := union (one 47) (one 58).
(** [\s\?#:.] *)
Definition set_repo_stop : N -> bool :=
  union white_space (union (one 63) (union (one 35) (union (one 58) (one 46)))).

(** The eight pieces of [SSH_PATH_RE], in the order of the source array;
    the body of each optional group has a name of its own. *)
Definition re_lead : regex := Cat Start (star (class_i white_space)).
Definition re_proto_body : regex :=
  cat [Named Gproto (plus (class_i set_az)); chr ":"; chr "/"; chr "/"].
Definition re_proto : regex := opt re_proto_body.
Definition re_user_body : regex :=
  Cat (Named Guser (Cat (class_i set_az_) (plus (class_i set_az09_dash))))
      (chr "@").
Definition re_user : regex := opt re_user_body.
Definition re_domain : regex := Named Gdomain (plus (not_class_i set_delim)).
Definition re_port_body : regex :=
  Cat (chr ":") (Named Gport (Quant 1 (Some 5%nat) (class_i set_digit))).
Definition re_port : regex := opt re_port_body.
Definition re_owner_body : regex :=
  Cat (class_i set_sep) (Named Gowner (plus (not_class_i set_delim))).
Definition re_owner : regex := opt re_owner_body.
(** [git\/?\s*$], the body of the negative lookahead. *)
Definition re_git_end : regex :=
  cat [chr "g"; chr "i"; chr "t"; opt (chr "/"); star (class_i white_space); End].
Definition re_repo_atom : regex :=
  Or (not_class_i set_repo_stop) (Cat (chr ".") (NotAhead re_git_end)).
Definition re_repo : regex :=
  Cat (class_i set_sep) (Named Grepo (plus re_repo_atom)).
Definition re_tail : regex :=
  cat [opt (cat [any_char; chr "g"; chr "i"; chr "t"]); opt (chr "/");
       star (class_i white_space); End].

(** The pieces' sources joined by the empty string, with flag [i]. *)
Definition SSH_PATH_RE : regex :=
  cat [re_lead; re_proto; re_user; re_domain; re_port; re_owner; re_repo; re_tail].

(** The object returned by [sanitizeRepoPathSSH].  [domain] and [repo] are
    the groups as they are ([undefined] when a group did not take part). *)
Record SSHLocation := mkLoc {
  user : jsstring;
  domain : option jsstring;
  port : number;
  owner : jsstring;
  repo : option jsstring
}.

Inductive trpc_code := BAD_REQUEST | NOT_FOUND.

(** Values thrown or rejected with. *)
Inductive error :=
| TRPCError (code : trpc_code) (message : jsstring)
| JSError (message : jsstring)        (* [new Error(message)] *)
| Rejected (rendered : jsstring).     (* a collaborator's rejection, by its text *)

Inductive result (A : Type) :=
| Ok (a : A)
| Throw (e : error).
Arguments Ok {A} a.
Arguments Throw {A} e.

Definition nullish (d : jsstring) (v : option jsstring) : jsstring :=
  match v with
  | Some s => s
  | None => d
  end.

Definition sanitizeRepoPathSSH (input : jsstring) : result SSHLocation :=
  match exec SSH_PATH_RE input with
  | None => Throw (JSError (str "Malformatted SSH path: " ++ input))
  | Some found =>
      let gs := captures found in
      Ok (mkLoc (nullish (str "git") (g_user gs))
                (g_domain gs)
                (match g_port gs with
                 | Some p => Number p
                 | None => Int 22
                 end)
                (nullish [] (g_owner gs))
                (g_repo gs))
  end.

Definition tpl_opt (v : option jsstring) : jsstring :=
  match v with
  | Some s => s
  | None => str "undefined"
  end.

(** The [repoPath] getter. *)
Definition repoPath (l : SSHLocation) : jsstring :=
  str "ssh://" ++ user l ++ str "@" ++ tpl_opt (domain l) ++ str ":"
  ++ String_of_number (port l) ++ str "/" ++ owner l
  ++ (match owner l with [] => [] | _ :: _ => str "/" end)
  ++ tpl_opt (repo l) ++ str ".git".

(** [isHttpOrHttps]: [/^https?:\/\//.test(url)]. *)
Definition re_http : regex :=
  cat [Start; Chars (one 104); Chars (one 116); Chars (one 116); Chars (one 112);
       opt (Chars (one 115)); Chars (one 58); Chars (one 47); Chars (one 47)].

Definition isHttpOrHttps (url : jsstring) : bool := test re_http url.

(* ================================================================== *)
(** ** Collaborators, effects and traces *)

Definition nl : jsstring := [10].
Definition tab : jsstring := [9].
Definition dq : jsstring := [34].

Fixpoint concat_str (l : list jsstring) : jsstring :=
  match l with
  | [] => []
  | s :: l' => s ++ concat_str l'
  end.

(** [Array.prototype.join]. *)
Fixpoint join_with (sep : jsstring) (l : list jsstring) : jsstring :=
  match l with
  | [] => []
  | [s] => s
  | s :: l' => s ++ sep ++ join_with sep l'
  end.

(** [String(error)], as a template literal renders a thrown value. *)
Definition String_of_error (e : error) : jsstring :=
  match e with
  | TRPCError _ msg => str "TRPCError: " ++ msg
  | JSError msg => str "Error: " ++ msg
  | Rejected r => r
  end.

Record Paths := mkPaths {
  SSH_PATH : jsstring;
  COMPOSE_PATH : jsstring;
  APPLICATIONS_PATH : jsstring
}.

Definition environment := list (jsstring * jsstring).

(** Object spread of one more key over an environment. *)
Fixpoint spread_key (k v : jsstring) (env : environment) : environment :=
  match env with
  | [] => [(k, v)]
  | (k', v') :: env' =>
      if jsstring_eqb k' k then (k', v) :: env' else (k', v') :: spread_key k v env'
  end.

(** What the module imports and does not define: the constants of
    [paths], [path.join], the process environment, the clock, and the
    outcome of each collaborator call. *)
Record World := mkWorld {
  paths : bool -> Paths;
  path_join : list jsstring -> jsstring;
  process_env : environment;
  now_iso : jsstring;
  execAsync : jsstring -> result unit;
  execAsyncRemote : maybe -> jsstring -> result unit;
  recreateDirectory : jsstring -> result unit;
  updateSSHKeyById : jsstring -> jsstring -> result unit;
  spawnAsync : jsstring -> list jsstring -> environment -> list jsstring * result unit
}.

(** What a run does to the outside, in order. *)
Inductive event :=
| CreateWriteStream (path : jsstring)
| Write (chunk : jsstring)
| EndStream
| Exec (command : jsstring)
| ExecRemote (server : maybe) (command : jsstring)
| RecreateDirectory (path : jsstring)
| UpdateSSHKey (sshKeyId lastUsedAt : jsstring)
| Spawn (command : jsstring) (args : list jsstring) (env : environment)
| Console (text : jsstring).

(** A run: the trace of its effects and how it ends. *)
Definition run (A : Type) : Type := (list event * result A)%type.

Definition ret {A} (a : A) : run A := ([], Ok a).
Definition throw {A} (e : error) : run A := ([], Throw e).
Definition bind {A B} (p : run A) (f : A -> run B) : run B :=
  match p with
  | (t, Ok a) => let (t', r) := f a in (t ++ t', r)
  | (t, Throw e) => (t, Throw e)
  end.
Definition emit (ev : event) : run unit := ([ev], Ok tt).
(** An awaited collaborator call. *)
Definition call (ev : event) (r : result unit) : run unit := ([ev], r).
Definition try_catch {A} (body : run A) (handler : error -> run A) : run A :=
  match body with
  | (t, Ok a) => (t, Ok a)
  | (t, Throw e) => let (t', r) := handler e in (t ++ t', r)
  end.
Definition finally {A} (body : run A) (fin : run unit) : run A :=
  match body, fin with
  | (t, r), (t', Ok _) => (t ++ t', r)
  | (t, _), (t', Throw e) => (t ++ t', Throw e)
  end.
Definition when (b : bool) (p : run unit) : run unit := if b then p else ret tt.

Declare Scope run_scope.
Delimit Scope run_scope with run.
Notation "x <- p ;; q" := (bind p (fun x => q))
  (at level 61, p at next level, right associativity) : run_scope.
Notation "p ;; q" := (bind p (fun _ => q))
  (at level 61, right associativity) : run_scope.
Open Scope run_scope.

Record Entity := mkEntity {
  appName : jsstring;
  customGitUrl : maybe;
  customGitBranch : maybe;
  customGitSSHKeyId : maybe;
  serverId : maybe
}.

Definition repository_not_found : error :=
  TRPCError BAD_REQUEST (str "Error: Repository not found").

Definition GIT_SSH_COMMAND_value (keyPath knownHostsPath : jsstring) : jsstring :=
  str "ssh -i " ++ keyPath ++ str " -o UserKnownHostsFile=" ++ knownHostsPath.

(** [{ ...process.env, ...(customGitSSHKeyId && { GIT_SSH_COMMAND: ... }) }] *)
Definition spawn_env (W : World) (id : maybe) (keyPath knownHostsPath : jsstring)
  : environment :=
  if truthy id
  then spread_key (str "GIT_SSH_COMMAND")
         (GIT_SSH_COMMAND_value keyPath knownHostsPath) (process_env W)
  else process_env W.

(** [spawnAsync(command, args, onData, { env })]: the chunks the child
    produces are handed to [onData] while the call is awaited. *)
Definition spawn (W : World) (command : jsstring) (args : list jsstring)
    (onData : jsstring -> list event) (env : environment) : run unit :=
  let (chunks, r) := spawnAsync W command args env in
  (Spawn command args env :: flat_map onData chunks, r).

Definition keyscan_command (l : SSHLocation) (knownHostsPath : jsstring) : jsstring :=
  str "ssh-keyscan -p " ++ String_of_number (port l) ++ str " "
  ++ tpl_opt (domain l) ++ str " >> " ++ knownHostsPath.

Definition addHostToKnownHosts (W : World) (repositoryURL : jsstring) : run unit :=
  let P := paths W false in
  match sanitizeRepoPathSSH repositoryURL with
  | Throw e => throw e
  | Ok l =>
      let knownHostsPath := path_join W [SSH_PATH P; str "known_hosts"] in
      let command := keyscan_command l knownHostsPath in
      try_catch (call (Exec command) (execAsync W command))
        (fun error =>
           emit (Console (str "Error adding host to known_hosts: "
                          ++ String_of_error error)) ;;
           throw error)
  end.

Definition addHostToKnownHostsCommand (W : World) (repositoryURL : jsstring)
  : result jsstring :=
  let P := paths W false in
  match sanitizeRepoPathSSH repositoryURL with
  | Throw e => Throw e
  | Ok l =>
      let knownHostsPath := path_join W [SSH_PATH P; str "known_hosts"] in
      Ok (keyscan_command l knownHostsPath ++ str ";")
  end.

Definition lift {A} (r : result A) : run A := ([], r).

Definition cloning_line (url outputPath : jsstring) : jsstring :=
  nl ++ str "Cloning Repo Custom " ++ url ++ str " to " ++ outputPath
  ++ str ": " ++ check_mark ++ nl.
Definition cloned_line (url : jsstring) : jsstring :=
  nl ++ str "Cloned Custom Git " ++ url ++ str ": " ++ check_mark ++ nl.
Definition error_line (e : error) : jsstring :=
  nl ++ str "ERROR Cloning Custom Git: " ++ String_of_error e ++ str ": "
  ++ cross_mark ++ nl.

Definition local_clone_args (branch url outputPath : jsstring) : list jsstring :=
  [str "clone"; str "--branch"; branch; str "--depth"; str "1";
   str "--recurse-submodules"; url; outputPath; str "--progress"].

Definition cloneGitRepository (W : World) (entity : Entity) (logPath : jsstring)
    (isCompose : bool) : run unit :=
  let P := paths W false in
  if negb (truthy (customGitUrl entity)) || negb (truthy (customGitBranch entity))
  then throw repository_not_found
  else
    let url := tpl (customGitUrl entity) in
    let branch := tpl (customGitBranch entity) in
    emit (CreateWriteStream logPath) ;;
    let keyPath :=
      path_join W [SSH_PATH P; tpl (customGitSSHKeyId entity) ++ str "_rsa"] in
    let basePath := if isCompose then COMPOSE_PATH P else APPLICATIONS_PATH P in
    let outputPath := path_join W [basePath; appName entity; str "code"] in
    let knownHostsPath := path_join W [SSH_PATH P; str "known_hosts"] in
    finally
      (try_catch
         (when (negb (isHttpOrHttps url)) (addHostToKnownHosts W url) ;;
          call (RecreateDirectory outputPath) (recreateDirectory W outputPath) ;;
          emit (Write (cloning_line url outputPath)) ;;
          when (truthy (customGitSSHKeyId entity))
            (call (UpdateSSHKey (tpl (customGitSSHKeyId entity)) (now_iso W))
               (updateSSHKeyById W (tpl (customGitSSHKeyId entity)) (now_iso W))) ;;
          spawn W (str "git") (local_clone_args branch url outputPath)
            (fun data => [Write data])
            (spawn_env W (customGitSSHKeyId entity) keyPath knownHostsPath) ;;
          emit (Write (cloned_line url)))
         (fun error =>
            emit (Write (error_line error)) ;;
            throw error))
      (emit EndStream).

Definition missing_repository_script (logPath : jsstring) : jsstring :=
  nl ++ tab ++ tab ++ tab ++ str "echo  " ++ dq ++ str "Error: " ++ cross_mark
  ++ str " Repository not found" ++ dq ++ str " >> " ++ logPath ++ str ";"
  ++ nl ++ tab ++ tab ++ tab ++ str "exit 1;" ++ nl ++ tab ++ tab.

Definition GIT_SSH_COMMAND_line (keyPath knownHostsPath : jsstring) : jsstring :=
  str "GIT_SSH_COMMAND=" ++ dq ++ GIT_SSH_COMMAND_value keyPath knownHostsPath ++ dq.

Definition remote_clone_block (branch url outputPath logPath : jsstring) : jsstring :=
  str "if ! git clone --branch " ++ branch ++ str " --depth 1 --progress " ++ url
  ++ str " " ++ outputPath ++ str " >> " ++ logPath ++ str " 2>&1; then" ++ nl
  ++ tab ++ tab ++ tab ++ tab ++ str "echo " ++ dq ++ cross_mark
  ++ str " [ERROR] Fail to clone the repository " ++ url ++ dq ++ str " >> "
  ++ logPath ++ str ";" ++ nl
  ++ tab ++ tab ++ tab ++ tab ++ str "exit 1;" ++ nl
  ++ tab ++ tab ++ tab ++ str "fi" ++ nl
  ++ tab ++ tab ++ tab.

Definition getCustomGitCloneCommand (W : World) (entity : Entity)
    (logPath : jsstring) (isCompose : bool) : run jsstring :=
  let P := paths W true in
  if negb (truthy (customGitUrl entity)) || negb (truthy (customGitBranch entity))
  then
    let command := missing_repository_script logPath in
    call (ExecRemote (serverId entity) command)
      (execAsyncRemote W (serverId entity) command) ;;
    throw repository_not_found
  else
    let url := tpl (customGitUrl entity) in
    let branch := tpl (customGitBranch entity) in
    let keyPath :=
      path_join W [SSH_PATH P; tpl (customGitSSHKeyId entity) ++ str "_rsa"] in
    let basePath := if isCompose then COMPOSE_PATH P else APPLICATIONS_PATH P in
    let outputPath := path_join W [basePath; appName entity; str "code"] in
    let knownHostsPath := path_join W [SSH_PATH P; str "known_hosts"] in
    when (truthy (customGitSSHKeyId entity))
      (call (UpdateSSHKey (tpl (customGitSSHKeyId entity)) (now_iso W))
         (updateSSHKeyById W (tpl (customGitSSHKeyId entity)) (now_iso W))) ;;
    try_catch
      (command0 <-
         (if negb (isHttpOrHttps url)
          then (line <- lift (addHostToKnownHostsCommand W url) ;; ret [line])
          else ret []) ;;
       let command1 :=
         command0
         ++ [str "rm -rf " ++ outputPath ++ str ";";
             str "mkdir -p " ++ outputPath ++ str ";";
             str "echo " ++ dq ++ str "Cloning Custom Git " ++ url ++ dq
             ++ str " to " ++ outputPath ++ str ": " ++ check_mark ++ str " >> "
             ++ logPath ++ str ";"] in
       let command2 :=
         if truthy (customGitSSHKeyId entity)
         then command1 ++ [GIT_SSH_COMMAND_line keyPath knownHostsPath]
         else command1 in
       let command3 :=
         command2
         ++ [remote_clone_block branch url outputPath logPath;
             str "echo " ++ dq ++ str "Cloned Custom Git " ++ url ++ str ": "
             ++ check_mark ++ dq ++ str " >> " ++ logPath ++ str ";"] in
       ret (join_with nl command3))
      (fun error =>
         emit (Console (String_of_error error)) ;;
         throw error).

Definition raw_clone_args (branch url outputPath : jsstring) : list jsstring :=
  [str "clone"; str "--branch"; branch; str "--depth"; str "1";
   url; outputPath; str "--progress"].

Definition cloneGitRawRepository (W : World) (entity : Entity) : run unit :=
  if negb (truthy (customGitUrl entity)) || negb (truthy (customGitBranch entity))
  then throw repository_not_found
  else
    let url := tpl (customGitUrl entity) in
    let branch := tpl (customGitBranch entity) in
    let P := paths W false in
    let keyPath :=
      path_join W [SSH_PATH P; tpl (customGitSSHKeyId entity) ++ str "_rsa"] in
    let basePath := COMPOSE_PATH P in
    let outputPath := path_join W [basePath; appName entity; str "code"] in
    let knownHostsPath := path_join W [SSH_PATH P; str "known_hosts"] in
    try_catch
      (addHostToKnownHosts W url ;;
       call (RecreateDirectory outputPath) (recreateDirectory W outputPath) ;;
       when (truthy (customGitSSHKeyId entity))
         (call (UpdateSSHKey (tpl (customGitSSHKeyId entity)) (now_iso W))
            (updateSSHKeyById W (tpl (customGitSSHKeyId entity)) (now_iso W))) ;;
       spawn W (str "git") (raw_clone_args branch url outputPath)
         (fun data => [])
         (spawn_env W (customGitSSHKeyId entity) keyPath knownHostsPath))
      (fun error => throw error).

Definition raw_remote_clone_block (branch url outputPath : jsstring) : jsstring :=
  str "if ! git clone --branch " ++ branch ++ str " --depth 1 --progress " ++ url
  ++ str " " ++ outputPath ++ str " ; then" ++ nl
  ++ tab ++ tab ++ tab ++ tab ++ str "echo " ++ dq
  ++ str "[ERROR] Fail to clone the repository " ++ dq ++ str ";" ++ nl
  ++ tab ++ tab ++ tab ++ tab ++ str "exit 1;" ++ nl
  ++ tab ++ tab ++ tab ++ str "fi" ++ nl
  ++ tab ++ tab ++ tab.

Definition cloneRawGitRepositoryRemote (W : World) (compose : Entity) : run unit :=
  if negb (truthy (serverId compose))
  then throw (TRPCError NOT_FOUND (str "Server not found"))
  else if negb (truthy (customGitUrl compose))
  then throw (TRPCError NOT_FOUND (str "Git Provider not found"))
  else
    let url := tpl (customGitUrl compose) in
    let P := paths W true in
    let keyPath :=
      path_join W [SSH_PATH P; tpl (customGitSSHKeyId compose) ++ str "_rsa"] in
    let basePath := COMPOSE_PATH P in
    let outputPath := path_join W [basePath; appName compose; str "code"] in
    let knownHostsPath := path_join W [SSH_PATH P; str "known_hosts"] in
    when (truthy (customGitSSHKeyId compose))
      (call (UpdateSSHKey (tpl (customGitSSHKeyId compose)) (now_iso W))
         (updateSSHKeyById W (tpl (customGitSSHKeyId compose)) (now_iso W))) ;;
    try_catch
      (command0 <-
         (if negb (isHttpOrHttps url)
          then (line <- lift (addHostToKnownHostsCommand W url) ;; ret [line])
          else ret []) ;;
       let command1 :=
         command0
         ++ [str "rm -rf " ++ outputPath ++ str ";";
             str "mkdir -p " ++ outputPath ++ str ";"] in
       let command2 :=
         if truthy (customGitSSHKeyId compose)
         then command1 ++ [GIT_SSH_COMMAND_line keyPath knownHostsPath]
         else command1 in
       let command3 :=
         command2
         ++ [raw_remote_clone_block (tpl (customGitBranch compose)) url outputPath] in
       call (ExecRemote (serverId compose) (join_with nl command3))
         (execAsyncRemote W (serverId compose) (join_with nl command3)))
      (fun error => throw error).

(* ================================================================== *)
(** ** Names for the parts of a local clone *)

Definition local_output_path (W : World) (entity : Entity) (isCompose : bool)
  : jsstring :=
  path_join W
    [if isCompose then COMPOSE_PATH (paths W false)
     else APPLICATIONS_PATH (paths W false);
     appName entity; str "code"].

Definition local_key_path (W : World) (entity : Entity) : jsstring :=
  path_join W [SSH_PATH (paths W false);
               tpl (customGitSSHKeyId entity) ++ str "_rsa"].

Definition local_known_hosts (W : World) : jsstring :=
  path_join W [SSH_PATH (paths W false); str "known_hosts"].

(** The host-key step of [cloneGitRepository]. *)
Definition keyscan_step (W : World) (entity : Entity) : run unit :=
  when (negb (isHttpOrHttps (tpl (customGitUrl entity))))
    (addHostToKnownHosts W (tpl (customGitUrl entity))).

(** The child process of [cloneGitRepository]: its arguments, its
    environment and what the collaborator answers. *)
Definition local_spawn_args (W : World) (entity : Entity) (isCompose : bool)
  : list jsstring :=
  local_clone_args (tpl (customGitBranch entity)) (tpl (customGitUrl entity))
    (local_output_path W entity isCompose).

Definition local_spawn_env (W : World) (entity : Entity) : environment :=
  spawn_env W (customGitSSHKeyId entity) (local_key_path W entity)
    (local_known_hosts W).

Definition local_spawn_answer (W : World) (entity : Entity) (isCompose : bool)
  : list jsstring * result unit :=
  spawnAsync W (str "git") (local_spawn_args W entity isCompose)
    (local_spawn_env W entity).

(** The block guarded by [try] in [cloneGitRepository]. *)
Definition clone_steps (W : World) (entity : Entity) (isCompose : bool) : run unit :=
  keyscan_step W entity ;;
  call (RecreateDirectory (local_output_path W entity isCompose))
    (recreateDirectory W (local_output_path W entity isCompose)) ;;
  emit (Write (cloning_line (tpl (customGitUrl entity))
                 (local_output_path W entity isCompose))) ;;
  when (truthy (customGitSSHKeyId entity))
    (call (UpdateSSHKey (tpl (customGitSSHKeyId entity)) (now_iso W))
       (updateSSHKeyById W (tpl (customGitSSHKeyId entity)) (now_iso W))) ;;
  spawn W (str "git") (local_spawn_args W entity isCompose)
    (fun data => [Write data]) (local_spawn_env W entity) ;;
  emit (Write (cloned_line (tpl (customGitUrl entity)))).

(** What the credential bookkeeping answers, when it is asked. *)
Definition key_update_answer (W : World) (entity : Entity) : result unit :=
  if truthy (customGitSSHKeyId entity)
  then updateSSHKeyById W (tpl (customGitSSHKeyId entity)) (now_iso W)
  else Ok tt.

Definition key_update_events (W : World) (entity : Entity) : list event :=
  if truthy (customGitSSHKeyId entity)
  then [UpdateSSHKey (tpl (customGitSSHKeyId entity)) (now_iso W)]
  else [].

(** The events of the guarded block up to the spawn: host-key scan,
    directory reset, the announcing line, credential bookkeeping. *)
Definition events_before_spawn (W : World) (entity : Entity) (isCompose : bool)
  : list event :=
  fst (keyscan_step W entity)
  ++ [RecreateDirectory (local_output_path W entity isCompose);
      Write (cloning_line (tpl (customGitUrl entity))
               (local_output_path W entity isCompose))]
  ++ key_update_events W entity.

(** The events from the spawn on. *)
Definition events_after_spawn (W : World) (entity : Entity) (isCompose : bool)
  : list event :=
  flat_map (fun data => [Write data]) (fst (local_spawn_answer W entity isCompose))
  ++ match snd (local_spawn_answer W entity isCompose) with
     | Ok _ => [Write (cloned_line (tpl (customGitUrl entity)))]
     | Throw _ => []
     end.

Definition valid_reference (entity : Entity) : bool :=
  truthy (customGitUrl entity) && truthy (customGitBranch entity).

(* ================================================================== *)
(** ** Reading a command line *)

Definition shell_blank (ch : N) : bool := (ch =? 32) || (ch =? 9) || (ch =? 10).

(** The words of a command text, split at blanks. *)
Fixpoint shell_words_aux (cur : jsstring) (s : jsstring) : list jsstring :=
  match s with
  | [] => match cur with [] => [] | _ :: _ => [rev cur] end
  | ch :: s' =>
      if shell_blank ch
      then match cur with
           | [] => shell_words_aux [] s'
           | _ :: _ => rev cur :: shell_words_aux [] s'
           end
      else shell_words_aux (ch :: cur) s'
  end.

Definition shell_words (s : jsstring) : list jsstring := shell_words_aux [] s.

(** The long options among the words. *)
Definition long_options (ws : list jsstring) : list jsstring :=
  filter (fun w => match w with 45 :: 45 :: _ => true | _ => false end) ws.

(** The arguments of the clone spawned by a run, when it spawned one. *)
Fixpoint spawned_args (t : list event) : option (list jsstring) :=
  match t with
  | [] => None
  | Spawn _ args _ :: _ => Some args
  | _ :: t' => spawned_args t'
  end.

Definition is_spawn (ev : event) : bool :=
  match ev with
  | Spawn _ _ _ => true
  | _ => false
  end.

Definition is_keyscan (ev : event) : bool :=
  match ev with
  | Exec _ => true
  | _ => false
  end.

(* ================================================================== *)
(** ** Sample worlds and references *)

Definition sample_paths (isServer : bool) : Paths :=
  mkPaths (str "/etc/dokploy/ssh") (str "/etc/dokploy/compose")
    (str "/etc/dokploy/applications").

(** A world in which every collaborator succeeds and the child is silent. *)
Definition world_ok : World :=
  mkWorld sample_paths (join_with (str "/")) [(str "PATH", str "/usr/bin")]
    (str "2024-01-01T00:00:00.000Z")
    (fun _ => Ok tt) (fun _ _ => Ok tt) (fun _ => Ok tt) (fun _ _ => Ok tt)
    (fun _ _ _ => ([], Ok tt)).

Definition key_store_down : error := Rejected (str "Error: SSH key not found").
Definition clone_exit_128 : error := Rejected (str "Error: Command failed with code 128").

(** The same world, but the credential bookkeeping rejects. *)
Definition world_key_fails : World :=
  mkWorld sample_paths (join_with (str "/")) [(str "PATH", str "/usr/bin")]
    (str "2024-01-01T00:00:00.000Z")
    (fun _ => Ok tt) (fun _ _ => Ok tt) (fun _ => Ok tt)
    (fun _ _ => Throw key_store_down)
    (fun _ _ _ => ([], Ok tt)).

(** The same world, but the clone child exits with a failure after some
    output. *)
Definition world_clone_fails : World :=
  mkWorld sample_paths (join_with (str "/")) [(str "PATH", str "/usr/bin")]
    (str "2024-01-01T00:00:00.000Z")
    (fun _ => Ok tt) (fun _ _ => Ok tt) (fun _ => Ok tt) (fun _ _ => Ok tt)
    (fun _ _ _ => ([str "fatal: repository not found"], Throw clone_exit_128)).

(** Modelled from the spec: the remote command execution collaborator
    [execAsyncRemote] is not part of this module.  By its contract it
    "executes scriptText with a POSIX-compatible shell on the named host and
    surfaces a failure if the script's exit status is non-zero"; [sh] is the
    exit status the remote shell gives a script. *)
Definition runOnRemoteHost (sh : jsstring -> N) (server : maybe)
    (scriptText : jsstring) : result unit :=
  if sh scriptText =? 0 then Ok tt
  else Throw (Rejected (str "Command exited with code "
                        ++ String_of_number (Int (sh scriptText)))).

Definition world_remote (sh : jsstring -> N) : World :=
  mkWorld sample_paths (join_with (str "/")) [(str "PATH", str "/usr/bin")]
    (str "2024-01-01T00:00:00.000Z")
    (fun _ => Ok tt) (runOnRemoteHost sh) (fun _ => Ok tt) (fun _ _ => Ok tt)
    (fun _ _ _ => ([], Ok tt)).

Definition sample_log : jsstring := str "/etc/dokploy/logs/app/deploy.log".

Definition ssh_entity : Entity :=
  mkEntity (str "app") (Str (str "git@github.com:owner/repo.git"))
    (Str (str "main")) Undefined (Str (str "srv1")).

Definition ssh_entity_with_key : Entity :=
  mkEntity (str "app") (Str (str "git@github.com:owner/repo.git"))
    (Str (str "main")) (Str (str "key1")) (Str (str "srv1")).

Definition https_entity : Entity :=
  mkEntity (str "app") (Str (str "https://github.com/owner/repo.git"))
    (Str (str "main")) Undefined (Str (str "srv1")).

Definition entity_without_branch : Entity :=
  mkEntity (str "app") (Str (str "git@github.com:owner/repo.git"))
    Null Undefined (Str (str "srv1")).

Definition entity_without_url : Entity :=
  mkEntity (str "app") Undefined (Str (str "main")) Undefined (Str (str "srv1")).

(* ================================================================== *)
(** ** Vocabulary of the proofs about the matcher *)

(** The character tests of [SSH_PATH_RE]. *)
Definition p_ws : N -> bool := in_set_i white_space.
Definition p_az : N -> bool := in_set_i set_az.
Definition p_az_ : N -> bool := in_set_i set_az_.
Definition p_user : N -> bool := in_set_i set_az09_dash.
Definition p_digit : N -> bool := in_set_i set_digit.
Definition p_dom (ch : N) : bool := negb (in_set_i set_delim ch).
Definition p_sep : N -> bool := in_set_i set_sep.
Definition p_repo1 (ch : N) : bool := negb (in_set_i set_repo_stop ch).
Definition p_dot : N -> bool := in_set_i (one 46).

(** A test on the code unit alone. *)
Definition q_of (p : N -> bool) : N -> jsstring -> bool := fun ch _ => p ch.

(** The negative lookahead of the [repo] group, read on the text that
    follows the dot. *)
Definition lookahead_fails (tl : jsstring) : bool :=
  match m re_git_end Some (mkState 0 tl no_groups) with
  | Some _ => false
  | None => true
  end.

Definition q_repo (ch : N) (tl : jsstring) : bool :=
  p_repo1 ch || (p_dot ch && lookahead_fails tl).

(** A code unit the [repo] group can hold: not one of [\s?#:], the dot
    included. *)
Definition repo_char (ch : N) : bool := p_repo1 ch || (ch =? 46).

(** The texts the groups can hold. *)
Definition is_user (u : jsstring) : bool :=
  match u with
  | a :: (_ :: _) as u' => p_az_ a && forallb p_user u'
  | _ => false
  end.
Definition is_domain (d : jsstring) : bool :=
  match d with
  | [] => false
  | _ :: _ => forallb p_dom d
  end.
Definition is_port (ds : jsstring) : bool :=
  match ds with
  | [] => false
  | _ :: _ => forallb p_digit ds && Nat.leb (List.length ds) 5
  end.
Definition is_repo (r : jsstring) : bool :=
  match r with
  | [] => false
  | _ :: _ => forallb repo_char r
  end.

(** With no owner, the repository text does not split as a non-empty
    owner-like part, a slash and a non-empty rest. *)
Definition no_owner_split (r : jsstring) : Prop :=
  forall x y, r = x ++ 47 :: y -> x <> [] -> y <> [] -> forallb p_dom x = true -> False.

(** A canonical path and the groups it is built from. *)
Definition canonical_groups (u d P o r : jsstring) : groups :=
  mkGroups (Some (str "ssh")) (Some u) (Some d) (Some P)
    (match o with [] => None | _ :: _ => Some o end) (Some r).

Definition canonical_text (u d P o r : jsstring) : jsstring :=
  str "ssh://" ++ u ++ str "@" ++ d ++ str ":" ++ P ++ str "/" ++ o
  ++ (match o with [] => [] | _ :: _ => str "/" end) ++ r ++ str ".git".

(** What the groups hold after a successful match of [SSH_PATH_RE]. *)
Definition well_parsed (gs : groups) : Prop :=
  (g_user gs = None \/ exists u, g_user gs = Some u /\ is_user u = true)
  /\ (exists d, g_domain gs = Some d /\ is_domain d = true)
  /\ (g_port gs = None \/ exists ds, g_port gs = Some ds /\ is_port ds = true)
  /\ (exists r, g_repo gs = Some r /\ is_repo r = true
        /\ ((g_owner gs = None /\ no_owner_split r)
            \/ exists o, g_owner gs = Some o /\ is_domain o = true)).

(** An atom that consumes exactly one code unit, accepted on the code unit
    and on what follows it. *)
Definition single_step (ma : matcher) (q : N -> jsstring -> bool) : Prop :=
  forall c x,
    ma c x =
    match rest x with
    | [] => None
    | ch :: tl => if q ch tl then c (mkState (S (endIndex x)) tl (captures x)) else None
    end.

(** Every code unit of [xs], read in front of [tl], is accepted. *)
Fixpoint accepted (q : N -> jsstring -> bool) (xs tl : jsstring) : Prop :=
  match xs with
  | [] => True
  | ch :: xs' => q ch (xs' ++ tl) = true /\ accepted q xs' tl
  end.

Definition within (hi : option nat) (n : nat) : Prop :=
  match hi with
  | Some h => (n <= h)%nat
  | None => True
  end.

(** The quantified atom cannot go on after [tl] is reached. *)
Definition stops (q : N -> jsstring -> bool) (hi : option nat) (n : nat)
    (tl : jsstring) : Prop :=
  hi = Some n \/ tl = [] \/ exists ch tl', tl = ch :: tl' /\ q ch tl' = false.

Definition advance (x : state) (n : nat) (tl : jsstring) : state :=
  mkState (endIndex x + n) tl (captures x).

Definition frame (gs : list gname) (x y : state) : Prop :=
  forall g, ~ In g gs -> get_group g (captures y) = get_group g (captures x).

Definition shifted (k : nat) (x x' : state) : Prop :=
  rest x' = rest x /\ endIndex x' = (endIndex x + k)%nat.

Fixpoint no_start (r : regex) : Prop :=
  match r with
  | Start => False
  | Empty | Chars _ | End => True
  | Cat a b | Or a b => no_start a /\ no_start b
  | Quant _ _ a | Named _ a | NotAhead a => no_start a
  end.

(* ================================================================== *)
(** ** Generic facts about the matcher *)

Section Matcher.

Lemma clear_no_groups (x : state) : clear_groups [] x = x.
Proof. destruct x; reflexivity. Qed.

Lemma advance_0 (x : state) : advance x 0 (rest x) = x.
Proof. destruct x; unfold advance; simpl; f_equal; lia. Qed.

Lemma advance_S (x : state) (n : nat) (tl tl' : jsstring) :
  advance (mkState (S (endIndex x)) tl' (captures x)) n tl = advance x (S n) tl.
Proof. unfold advance; simpl; f_equal; lia. Qed.

Lemma opt_unfold (r : regex) (c : cont) (x : state) :
  m (opt r) c x =
  match m r (fun y => if Nat.eqb (endIndex y) (endIndex x) then None else c y)
          (clear_groups (groups_in r) x) with
  | Some z => Some z
  | None => c x
  end.
Proof. reflexivity. Qed.

Variable ma : matcher.
Variable q : N -> jsstring -> bool.
Hypothesis Hstep : single_step ma q.

Lemma rep_sound :
  forall fuel lo hi c x z,
    within hi lo ->
    RepeatMatcher fuel ma [] lo hi c x = Some z ->
    exists xs tl,
      rest x = xs ++ tl /\ accepted q xs tl /\ (lo <= List.length xs)%nat
      /\ within hi (List.length xs)
      /\ c (advance x (List.length xs) tl) = Some z.
Proof.
  induction fuel as [|fuel IH]; intros lo hi c x z Hw H; [discriminate|].
  assert (Hskip : forall hi', c x = Some z ->
          exists xs tl,
            rest x = xs ++ tl /\ accepted q xs tl /\ (0 <= List.length xs)%nat
            /\ within hi' (List.length xs)
            /\ c (advance x (List.length xs) tl) = Some z).
  { intros hi' Hc. exists [], (rest x). simpl. rewrite advance_0.
    repeat split; auto. destruct hi'; simpl; lia. }
  assert (Hmore : forall lo' hi',
    within hi' lo' -> hi' <> Some 0%nat ->
    ma (fun y =>
          if Nat.eqb lo' 0 && Nat.eqb (endIndex y) (endIndex x) then None
          else RepeatMatcher fuel ma [] (Nat.pred lo') (option_map Nat.pred hi') c y)
       x = Some z ->
    exists xs tl,
      rest x = xs ++ tl /\ accepted q xs tl /\ (lo' <= List.length xs)%nat
      /\ within hi' (List.length xs)
      /\ c (advance x (List.length xs) tl) = Some z).
  { intros lo' hi' Hw' Hhi Hm. rewrite Hstep in Hm.
    destruct (rest x) as [|ch tl] eqn:Hr; [discriminate|].
    destruct (q ch tl) eqn:Hq; [|discriminate].
    cbv beta in Hm. cbn [endIndex] in Hm.
    rewrite (proj2 (Nat.eqb_neq (S (endIndex x)) (endIndex x))) in Hm by lia.
    rewrite andb_false_r in Hm.
    apply IH in Hm.
    - destruct Hm as (xs & tl' & Hr' & Hacc & Hlo & Hhi' & Hc).
      simpl in Hr'. subst tl.
      exists (ch :: xs), tl'. simpl. rewrite advance_S in Hc.
      repeat split; auto; try lia.
      destruct hi' as [h|]; simpl in *; auto. destruct h; [congruence|simpl in *; lia].
    - destruct hi' as [h|]; simpl in *; auto. lia. }
  simpl in H. rewrite clear_no_groups in H.
  destruct hi as [[|h]|].
  - simpl in Hw. assert (lo = 0%nat) by lia. subst lo. apply Hskip; auto.
  - destruct lo as [|lo]; cbn [Nat.eqb] in H.
    + destruct (ma _ x) eqn:He in H.
      * injection H as ->. apply (Hmore 0%nat (Some (S h))); auto. discriminate.
      * apply Hskip; auto.
    + apply (Hmore (S lo) (Some (S h))); auto. discriminate.
  - destruct lo as [|lo]; cbn [Nat.eqb] in H.
    + destruct (ma _ x) eqn:He in H.
      * injection H as ->. apply (Hmore 0%nat None); auto. discriminate.
      * apply Hskip; auto.
    + apply (Hmore (S lo) None); auto. discriminate.
Qed.

Lemma rep_unfold_more :
  forall fuel lo hi c x ch tl,
    rest x = ch :: tl -> q ch tl = true -> hi <> Some 0%nat ->
    RepeatMatcher (S fuel) ma [] lo hi c x =
    match RepeatMatcher fuel ma [] (Nat.pred lo) (option_map Nat.pred hi) c
            (mkState (S (endIndex x)) tl (captures x)) with
    | Some z => Some z
    | None => if Nat.eqb lo 0 then c x else None
    end.
Proof.
  intros fuel lo hi c x ch tl Hr Hq Hhi.
  cbn [RepeatMatcher]. rewrite clear_no_groups, !Hstep, Hr, Hq.
  cbn [endIndex].
  rewrite (proj2 (Nat.eqb_neq (S (endIndex x)) (endIndex x))) by lia.
  rewrite andb_false_r.
  destruct hi as [[|h]|]; [congruence| |];
    destruct (Nat.eqb lo 0); destruct (RepeatMatcher fuel _ _ _ _ _ _); reflexivity.
Qed.

Lemma rep_unfold_stop :
  forall fuel lo hi c x,
    lo = 0%nat ->
    hi = Some 0%nat \/ rest x = []
    \/ (exists ch tl, rest x = ch :: tl /\ q ch tl = false) ->
    RepeatMatcher (S fuel) ma [] lo hi c x = c x.
Proof.
  intros fuel lo hi c x -> Hstop.
  cbn [RepeatMatcher]. rewrite clear_no_groups, !Hstep.
  destruct hi as [[|h]|]; try reflexivity;
    (destruct Hstop as [Hs|[Hs|(ch & tl & Hs & Hq)]];
     [try discriminate | rewrite Hs; reflexivity | rewrite Hs, Hq; reflexivity]).
Qed.

(** Completeness: a run of accepted code units after which the continuation
    succeeds makes the quantifier succeed. *)
Lemma rep_complete :
  forall xs fuel lo hi c x tl,
    rest x = xs ++ tl -> accepted q xs tl ->
    (lo <= List.length xs)%nat -> within hi (List.length xs) ->
    (List.length (rest x) + lo < fuel)%nat ->
    c (advance x (List.length xs) tl) <> None ->
    RepeatMatcher fuel ma [] lo hi c x <> None.
Proof.
  induction xs as [|ch xs IH]; intros fuel lo hi c x tl Hr Hacc Hlo Hhi Hf Hc.
  - simpl in *. subst tl. rewrite advance_0 in Hc.
    destruct fuel as [|fuel]; [lia|]. assert (lo = 0%nat) by lia. subst lo.
    cbn [RepeatMatcher]. rewrite clear_no_groups.
    destruct hi as [[|h]|]; auto; cbn [Nat.eqb];
      destruct (ma _ x); auto; discriminate.
  - simpl in Hr, Hacc, Hlo, Hhi. destruct Hacc as [Hq Hacc].
    destruct fuel as [|fuel]; [lia|].
    rewrite (rep_unfold_more fuel lo hi c x ch (xs ++ tl)); auto.
    + assert (Hn : RepeatMatcher fuel ma [] (Nat.pred lo) (option_map Nat.pred hi) c
                     (mkState (S (endIndex x)) (xs ++ tl) (captures x)) <> None).
      { apply (IH _ _ _ _ _ tl); auto.
        - lia.
        - destruct hi as [h|]; simpl in *; auto. lia.
        - rewrite Hr in Hf. simpl in *. lia.
        - rewrite advance_S. exact Hc. }
      destruct (RepeatMatcher fuel _ _ _ _ _ _); [discriminate|congruence].
    + destruct hi as [h|]; simpl in *; [|discriminate]. intros [= ->]. lia.
Qed.

(** Greedy priority: the longest run is tried first, so when the
    continuation succeeds after it, that is the result. *)
Lemma rep_greedy :
  forall xs fuel lo hi c x tl z,
    rest x = xs ++ tl -> accepted q xs tl ->
    (lo <= List.length xs)%nat -> within hi (List.length xs) ->
    (List.length (rest x) + lo < fuel)%nat ->
    stops q hi (List.length xs) tl ->
    c (advance x (List.length xs) tl) = Some z ->
    RepeatMatcher fuel ma [] lo hi c x = Some z.
Proof.
  induction xs as [|ch xs IH]; intros fuel lo hi c x tl z Hr Hacc Hlo Hhi Hf Hs Hc.
  - simpl in *. subst tl. rewrite advance_0 in Hc.
    destruct fuel as [|fuel]; [lia|]. assert (lo = 0%nat) by lia. subst lo.
    rewrite rep_unfold_stop; auto.
  - simpl in Hr, Hacc, Hlo, Hhi. destruct Hacc as [Hq Hacc].
    destruct fuel as [|fuel]; [lia|].
    rewrite (rep_unfold_more fuel lo hi c x ch (xs ++ tl)); auto.
    + rewrite (IH fuel (Nat.pred lo) (option_map Nat.pred hi) c _ tl z); auto.
      * lia.
      * destruct hi as [h|]; simpl in *; auto. lia.
      * rewrite Hr in Hf. simpl in *. lia.
      * destruct Hs as [Hs|Hs]; [left; subst hi; reflexivity|right; exact Hs].
      * rewrite advance_S. exact Hc.
    + destruct hi as [h|]; simpl in *; [|discriminate]. intros [= ->]. lia.
Qed.

End Matcher.

(** *** Captures: what a match leaves untouched *)

Lemma get_set_other (g g' : gname) (v : option jsstring) (c : groups) :
  g <> g' -> get_group g (set_group g' v c) = get_group g c.
Proof. destruct g, g'; intros H; try reflexivity; congruence. Qed.

Lemma get_set_same (g : gname) (v : option jsstring) (c : groups) :
  get_group g (set_group g v c) = v.
Proof. destruct g; reflexivity. Qed.

Lemma frame_refl gs x : frame gs x x.
Proof. intros g _. reflexivity. Qed.

Lemma frame_trans gs gs' x y z :
  frame gs x y -> frame gs' y z -> frame (gs ++ gs') x z.
Proof.
  intros H1 H2 g Hg. rewrite H2, H1; auto; intros Hin; apply Hg, in_or_app; auto.
Qed.

Lemma frame_weaken gs gs' x y :
  (forall g, In g gs -> In g gs') -> frame gs x y -> frame gs' x y.
Proof. intros Hsub H g Hg. apply H. intros Hin. apply Hg, Hsub, Hin. Qed.

Lemma clear_frame gs x : frame gs x (clear_groups gs x).
Proof.
  intros g Hg. unfold clear_groups. cbn [captures].
  induction gs as [|g' gs IH]; [reflexivity|].
  cbn [fold_right]. rewrite get_set_other.
  - apply IH. intros Hin. apply Hg. right. exact Hin.
  - intros ->. apply Hg. left. reflexivity.
Qed.

Lemma rep_frame (ma : matcher) (gs : list gname) :
  (forall c x z, ma c x = Some z -> exists y, c y = Some z /\ frame gs x y) ->
  forall fuel lo hi c x z,
    RepeatMatcher fuel ma gs lo hi c x = Some z ->
    exists y, c y = Some z /\ frame gs x y.
Proof.
  intros Hma. induction fuel as [|fuel IH]; intros lo hi c x z H; [discriminate|].
  assert (Hmore : forall lo' hi',
    ma (fun y =>
          if Nat.eqb lo' 0 && Nat.eqb (endIndex y) (endIndex x) then None
          else RepeatMatcher fuel ma gs (Nat.pred lo') (option_map Nat.pred hi') c y)
       (clear_groups gs x) = Some z ->
    exists y, c y = Some z /\ frame gs x y).
  { intros lo' hi' Hm. apply Hma in Hm. destruct Hm as (y1 & Hd & Hf1).
    destruct (Nat.eqb lo' 0 && Nat.eqb (endIndex y1) (endIndex x)); [discriminate|].
    apply IH in Hd. destruct Hd as (y & Hc & Hf2). exists y. split; auto.
    intros g Hg. rewrite Hf2, Hf1; auto. apply clear_frame; auto. }
  cbn [RepeatMatcher] in H.
  destruct hi as [[|h]|].
  - exists x. split; auto. apply frame_refl.
  - destruct (Nat.eqb lo 0) eqn:Hlo.
    + destruct (ma _ (clear_groups gs x)) eqn:He in H.
      * injection H as ->. apply (Hmore lo (Some (S h))). rewrite Hlo. exact He.
      * exists x. split; auto. apply frame_refl.
    + apply (Hmore lo (Some (S h))). rewrite Hlo. exact H.
  - destruct (Nat.eqb lo 0) eqn:Hlo.
    + destruct (ma _ (clear_groups gs x)) eqn:He in H.
      * injection H as ->. apply (Hmore lo None). rewrite Hlo. exact He.
      * exists x. split; auto. apply frame_refl.
    + apply (Hmore lo None). rewrite Hlo. exact H.
Qed.

(** A successful match hands to its continuation a state whose captures
    differ from the initial ones only on the groups of the expression. *)
Lemma m_frame :
  forall r c x z,
    m r c x = Some z -> exists y, c y = Some z /\ frame (groups_in r) x y.
Proof.
  induction r as [|p|a IHa b IHb|a IHa b IHb|lo hi a IHa|g a IHa|a IHa| |];
    intros c x z H; cbn [m groups_in] in *.
  - exists x. split; auto. apply frame_refl.
  - destruct (rest x) as [|ch tl]; [discriminate|].
    destruct (p ch); [|discriminate].
    eexists. split; [exact H|]. intros g _. reflexivity.
  - apply IHa in H. destruct H as (y1 & H & Hf1).
    apply IHb in H. destruct H as (y & H & Hf2).
    exists y. split; auto. eapply frame_trans; eauto.
  - destruct (m a c x) eqn:Ha.
    + injection H as ->. apply IHa in Ha. destruct Ha as (y & Hc & Hf).
      exists y. split; auto. eapply frame_weaken; [|exact Hf].
      intros g Hg. apply in_or_app. auto.
    + apply IHb in H. destruct H as (y & Hc & Hf).
      exists y. split; auto. eapply frame_weaken; [|exact Hf].
      intros g Hg. apply in_or_app. auto.
  - eapply rep_frame; [|exact H]. exact IHa.
  - apply IHa in H. destruct H as (y1 & H & Hf1).
    exists (capture g x y1). split; auto.
    intros g' Hg'. unfold capture. cbn [captures].
    rewrite get_set_other.
    + apply Hf1. intros Hin. apply Hg'. right. exact Hin.
    + intros ->. apply Hg'. left. reflexivity.
  - destruct (m a Some x); [discriminate|].
    exists x. split; auto. apply frame_refl.
  - destruct (Nat.eqb (endIndex x) 0); [|discriminate].
    exists x. split; auto. apply frame_refl.
  - destruct (rest x); [|discriminate].
    exists x. split; auto. apply frame_refl.
Qed.

(** *** Success does not depend on the captures, nor, without [^], on the
    index *)

Ltac solve_none :=
  match goal with
  | H : Some _ = None <-> None = None |- _ =>
      destruct H as [_ H]; specialize (H eq_refl); discriminate
  | H : None = None <-> Some _ = None |- _ =>
      destruct H as [H _]; specialize (H eq_refl); discriminate
  | _ => tauto
  | _ => split; discriminate
  end.

Lemma shifted_clear k gs x x' :
  shifted k x x' -> shifted k (clear_groups gs x) (clear_groups gs x').
Proof. intros [H1 H2]. split; assumption. Qed.

Lemma shifted_capture k g x x' y y' :
  shifted k y y' -> shifted k (capture g x y) (capture g x' y').
Proof. intros [H1 H2]. split; assumption. Qed.

Lemma rep_none_shift (ma : matcher) (gs : list gname) (k : nat) :
  (forall c c' x x',
      shifted k x x' ->
      (forall y y', shifted k y y' -> (c y = None <-> c' y' = None)) ->
      (ma c x = None <-> ma c' x' = None)) ->
  forall fuel lo hi c c' x x',
    shifted k x x' ->
    (forall y y', shifted k y y' -> (c y = None <-> c' y' = None)) ->
    (RepeatMatcher fuel ma gs lo hi c x = None
     <-> RepeatMatcher fuel ma gs lo hi c' x' = None).
Proof.
  intros Hma. induction fuel as [|fuel IH]; intros lo hi c c' x x' Hx Hc.
  - simpl. tauto.
  - assert (Hmore : forall lo' hi',
      ma (fun y =>
            if Nat.eqb lo' 0 && Nat.eqb (endIndex y) (endIndex x) then None
            else RepeatMatcher fuel ma gs (Nat.pred lo') (option_map Nat.pred hi') c y)
         (clear_groups gs x) = None
      <->
      ma (fun y =>
            if Nat.eqb lo' 0 && Nat.eqb (endIndex y) (endIndex x') then None
            else RepeatMatcher fuel ma gs (Nat.pred lo') (option_map Nat.pred hi') c' y)
         (clear_groups gs x') = None).
    { intros lo' hi'. apply Hma; [apply shifted_clear; exact Hx|].
      intros y y' Hy.
      replace (Nat.eqb (endIndex y') (endIndex x'))
        with (Nat.eqb (endIndex y) (endIndex x)).
      - destruct (Nat.eqb lo' 0 && Nat.eqb (endIndex y) (endIndex x)); [tauto|].
        apply IH; auto.
      - destruct Hx as [_ Hx], Hy as [_ Hy]. rewrite Hx, Hy.
        destruct (Nat.eqb (endIndex y) (endIndex x)) eqn:E; symmetry.
        + apply Nat.eqb_eq in E. apply Nat.eqb_eq. lia.
        + apply Nat.eqb_neq in E. apply Nat.eqb_neq. lia. }
    cbn [RepeatMatcher].
    destruct hi as [[|h]|]; [apply Hc; exact Hx| |];
      (destruct (Nat.eqb lo 0) eqn:Hlo; [|rewrite <- Hlo; apply Hmore]);
      specialize (Hmore lo); rewrite Hlo in Hmore.
    + specialize (Hmore (Some (S h))). specialize (Hc x x' Hx).
      destruct (ma _ (clear_groups gs x)); destruct (ma _ (clear_groups gs x'));
        solve_none.
    + specialize (Hmore None). specialize (Hc x x' Hx).
      destruct (ma _ (clear_groups gs x)); destruct (ma _ (clear_groups gs x'));
        solve_none.
Qed.

Lemma m_none_shift :
  forall r, no_start r ->
  forall k c c' x x',
    shifted k x x' ->
    (forall y y', shifted k y y' -> (c y = None <-> c' y' = None)) ->
    (m r c x = None <-> m r c' x' = None).
Proof.
  induction r as [|p|a IHa b IHb|a IHa b IHb|lo hi a IHa|g a IHa|a IHa| |];
    intros Hns k c c' x x' Hx Hc; cbn [m no_start] in *.
  - apply Hc; exact Hx.
  - destruct Hx as [Hr Hi]. rewrite Hr.
    destruct (rest x) as [|ch tl]; [tauto|].
    destruct (p ch); [|tauto].
    apply Hc. split; cbn [rest endIndex]; [reflexivity|lia].
  - destruct Hns as [Ha Hb]. apply (IHa Ha k); auto.
    intros y y' Hy. apply (IHb Hb k); auto.
  - destruct Hns as [Ha Hb].
    pose proof (IHa Ha k c c' x x' Hx Hc) as Ea.
    pose proof (IHb Hb k c c' x x' Hx Hc) as Eb.
    destruct (m a c x); destruct (m a c' x'); solve_none.
  - destruct Hx as [Hr Hi]. rewrite Hr.
    apply (rep_none_shift (m a) (groups_in a) k); auto; [|split; auto].
    intros d d' y y' Hy Hd. apply (IHa Hns k); auto.
  - apply (IHa Hns k); [exact Hx|]. intros y y' Hy. apply Hc.
    apply shifted_capture. exact Hy.
  - assert (E : m a Some x = None <-> m a Some x' = None).
    { apply (IHa Hns k); auto. intros y y' _. split; discriminate. }
    specialize (Hc x x' Hx).
    destruct (m a Some x); destruct (m a Some x'); solve_none.
  - contradiction.
  - destruct Hx as [Hr Hi]. rewrite Hr.
    destruct (rest x) eqn:E; [|tauto]. apply Hc. split; auto. congruence.
Qed.

(* ================================================================== *)
(** ** The character sets of [SSH_PATH_RE] *)

(** A set without letters is not changed by the ignore-case flag. *)
Lemma in_set_i_caseless (A : N -> bool) :
  (forall c, 65 <= c <= 90 \/ 97 <= c <= 122 -> A c = false) ->
  forall ch, in_set_i A ch = A ch.
Proof.
  intros HA ch. unfold in_set_i, Canonicalize.
  destruct (97 <=? ch) eqn:E1; destruct (ch <=? 122) eqn:E2; cbn [andb];
    try apply N.leb_le in E1; try apply N.leb_le in E2;
    try apply N.leb_gt in E1; try apply N.leb_gt in E2.
  - rewrite (HA (ch - 32)) by lia.
    replace (ch - 32 + 32) with ch by lia.
    replace (65 <=? ch - 32) with true by (symmetry; apply N.leb_le; lia).
    replace (ch - 32 <=? 90) with true by (symmetry; apply N.leb_le; lia).
    reflexivity.
  - destruct (65 <=? ch) eqn:E3; destruct (ch <=? 90) eqn:E4; cbn [andb];
      rewrite ?orb_false_r; try reflexivity.
    apply N.leb_le in E4. lia.
  - destruct (65 <=? ch) eqn:E3; destruct (ch <=? 90) eqn:E4; cbn [andb];
      rewrite ?orb_false_r; try reflexivity.
    apply N.leb_le in E3, E4. rewrite (HA ch), (HA (ch + 32)) by lia. reflexivity.
  - lia.
Qed.

Ltac bool_to_prop :=
  unfold union, range, one in *;
  repeat match goal with
  | H : _ || _ = true |- _ => apply orb_true_iff in H; destruct H as [H|H]
  | H : _ && _ = true |- _ => apply andb_true_iff in H; destruct H as [? H]
  | H : (_ <=? _) = true |- _ => apply N.leb_le in H
  | H : (_ =? _) = true |- _ => apply N.eqb_eq in H
  end.

Ltac no_letters :=
  let c := fresh "c" in let H := fresh "H" in let E := fresh "E" in
  intros c H;
  match goal with |- ?A c = false => destruct (A c) eqn:E; [exfalso|reflexivity] end;
  unfold set_delim, set_sep, set_repo_stop, set_digit, white_space in E;
  bool_to_prop; lia.

Lemma white_space_caseless ch : in_set_i white_space ch = white_space ch.
Proof. apply in_set_i_caseless. no_letters. Qed.

Lemma set_delim_caseless ch : in_set_i set_delim ch = set_delim ch.
Proof. apply in_set_i_caseless. no_letters. Qed.

Lemma set_sep_caseless ch : in_set_i set_sep ch = set_sep ch.
Proof. apply in_set_i_caseless. no_letters. Qed.

Lemma set_repo_stop_caseless ch : in_set_i set_repo_stop ch = set_repo_stop ch.
Proof. apply in_set_i_caseless. no_letters. Qed.

Lemma set_digit_caseless ch : in_set_i set_digit ch = set_digit ch.
Proof. apply in_set_i_caseless. no_letters. Qed.

Lemma dot_caseless ch : in_set_i (one 46) ch = (ch =? 46).
Proof. apply (in_set_i_caseless (one 46)). no_letters. Qed.

Lemma p_sep_spec ch : p_sep ch = true <-> ch = 47 \/ ch = 58.
Proof.
  unfold p_sep. rewrite set_sep_caseless. unfold set_sep, union, one.
  rewrite orb_true_iff, !N.eqb_eq. tauto.
Qed.

Lemma p_dom_not_sep ch : p_dom ch = true -> p_sep ch = false.
Proof.
  unfold p_dom, p_sep. rewrite set_delim_caseless, set_sep_caseless.
  unfold set_delim, set_sep, union.
  destruct (white_space ch), (one 47 ch), (one 63 ch), (one 35 ch), (one 58 ch);
    simpl; congruence.
Qed.

Lemma p_digit_not_dom_stop ch : p_digit ch = true -> p_sep ch = false.
Proof.
  unfold p_digit, p_sep. rewrite set_digit_caseless, set_sep_caseless.
  intros H. destruct (set_sep ch) eqn:E; [|reflexivity].
  unfold set_digit, set_sep in *. bool_to_prop; lia.
Qed.

Lemma repo_char_dom ch : repo_char ch = true -> ch <> 47 -> p_dom ch = true.
Proof.
  unfold repo_char, p_repo1, p_dom.
  rewrite set_repo_stop_caseless, set_delim_caseless.
  intros H Hne. apply N.eqb_neq in Hne.
  destruct (ch =? 46) eqn:E46.
  - apply N.eqb_eq in E46. subst ch. reflexivity.
  - rewrite orb_false_r in H. unfold set_repo_stop, set_delim, union, one in *.
    rewrite Hne.
    destruct (white_space ch), (ch =? 63), (ch =? 35), (ch =? 58);
      simpl in *; congruence.
Qed.

Lemma repo_char_not_colon ch : repo_char ch = true -> ch <> 58.
Proof.
  unfold repo_char, p_repo1. rewrite set_repo_stop_caseless.
  intros H ->. vm_compute in H. discriminate.
Qed.

Lemma p_dom_repo_char ch : p_dom ch = true -> repo_char ch = true.
Proof.
  unfold repo_char, p_repo1, p_dom.
  rewrite set_repo_stop_caseless, set_delim_caseless.
  unfold set_repo_stop, set_delim, union, one.
  destruct (white_space ch), (ch =? 47), (ch =? 63), (ch =? 35), (ch =? 58),
    (ch =? 46); simpl; congruence.
Qed.

Lemma q_repo_char ch tl : q_repo ch tl = true -> repo_char ch = true.
Proof.
  unfold q_repo, repo_char, p_dot. rewrite dot_caseless.
  destruct (p_repo1 ch), (ch =? 46); simpl; congruence.
Qed.

Lemma p_repo1_not_dot ch : p_repo1 ch = true -> p_dot ch = false.
Proof.
  unfold p_repo1, p_dot. rewrite set_repo_stop_caseless, dot_caseless.
  unfold set_repo_stop, union, one.
  destruct (white_space ch), (ch =? 63), (ch =? 35), (ch =? 58), (ch =? 46);
    simpl; congruence.
Qed.

(** *** Runs of accepted code units *)

Lemma accepted_q_of (p : N -> bool) xs tl :
  accepted (q_of p) xs tl <-> forallb p xs = true.
Proof.
  induction xs as [|ch xs IH]; simpl; [tauto|].
  unfold q_of at 1. rewrite andb_true_iff, IH. tauto.
Qed.

Lemma accepted_app q xs ys tl :
  accepted q (xs ++ ys) tl <-> accepted q xs (ys ++ tl) /\ accepted q ys tl.
Proof.
  induction xs as [|ch xs IH]; simpl; [tauto|].
  rewrite IH, <- app_assoc. tauto.
Qed.

Lemma accepted_repo_chars xs tl :
  accepted q_repo xs tl -> forallb repo_char xs = true.
Proof.
  induction xs as [|ch xs IH]; simpl; auto.
  intros [Hq H]. rewrite (q_repo_char _ _ Hq). auto.
Qed.

Lemma firstn_run (x : state) (xs tl : jsstring) :
  rest x = xs ++ tl ->
  firstn (endIndex x + List.length xs - endIndex x) (rest x) = xs.
Proof.
  intros ->. replace (endIndex x + List.length xs - endIndex x)%nat
    with (List.length xs + 0)%nat by lia.
  rewrite firstn_app_2. simpl. apply List.app_nil_r.
Qed.

Lemma capture_advance g x xs tl :
  rest x = xs ++ tl ->
  capture g x (advance x (List.length xs) tl) =
  mkState (endIndex x + List.length xs) tl (set_group g (Some xs) (captures x)).
Proof.
  intros Hr. unfold capture, advance. cbn [endIndex rest captures].
  rewrite (firstn_run x xs tl Hr). reflexivity.
Qed.

(** *** The atoms are single steps *)

Lemma chars_single_step (p : N -> bool) : single_step (m (Chars p)) (q_of p).
Proof. intros c x. reflexivity. Qed.

Lemma no_start_git_end : no_start re_git_end.
Proof. cbn. tauto. Qed.

Lemma lookahead_anywhere (x : state) :
  (m re_git_end Some x = None) <-> lookahead_fails (rest x) = true.
Proof.
  unfold lookahead_fails.
  assert (E : m re_git_end Some (mkState 0 (rest x) no_groups) = None
              <-> m re_git_end Some x = None).
  { apply (m_none_shift re_git_end no_start_git_end (endIndex x)).
    - split; reflexivity.
    - intros y y' _. split; discriminate. }
  destruct (m re_git_end Some (mkState 0 (rest x) no_groups)) eqn:E0.
  - split; [|discriminate]. intros H. apply E in H. discriminate.
  - split; auto. intros _. apply E. reflexivity.
Qed.

Lemma repo_atom_single_step : single_step (m re_repo_atom) q_repo.
Proof.
  intros c x. unfold re_repo_atom, not_class_i.
  change (chr ".") with (Chars p_dot).
  cbn [m]. fold p_repo1.
  destruct (rest x) as [|ch tl] eqn:Hr; [reflexivity|].
  unfold q_repo. fold (p_repo1 ch).
  destruct (p_repo1 ch) eqn:E1.
  - rewrite (p_repo1_not_dot _ E1). cbn [orb].
    destruct (c _); reflexivity.
  - cbn [orb]. destruct (p_dot ch) eqn:E2; [|reflexivity]. cbn [andb].
    pose proof (lookahead_anywhere (mkState (S (endIndex x)) tl (captures x))) as L.
    cbn [rest] in L.
    destruct (m re_git_end Some _) eqn:E3.
    + destruct (lookahead_fails tl); [|reflexivity].
      destruct L as [_ L]. specialize (L eq_refl). discriminate.
    + destruct L as [L _]. rewrite (L eq_refl). reflexivity.
Qed.

(* ================================================================== *)
(** ** Quantified atoms of [SSH_PATH_RE] *)

Lemma fuel_enough (x : state) (lo : nat) :
  (List.length (rest x) + lo < S (S (List.length (rest x) + lo)))%nat.
Proof. lia. Qed.

Lemma quant_sound a q lo hi c x z :
  single_step (m a) q -> groups_in a = [] -> within hi lo ->
  m (Quant lo hi a) c x = Some z ->
  exists xs tl,
    rest x = xs ++ tl /\ accepted q xs tl /\ (lo <= List.length xs)%nat
    /\ within hi (List.length xs)
    /\ c (advance x (List.length xs) tl) = Some z.
Proof.
  intros Hs Hg Hw H. cbn [m] in H. rewrite Hg in H.
  eapply rep_sound; eauto.
Qed.

Lemma quant_complete a q lo hi c x xs tl :
  single_step (m a) q -> groups_in a = [] ->
  rest x = xs ++ tl -> accepted q xs tl ->
  (lo <= List.length xs)%nat -> within hi (List.length xs) ->
  c (advance x (List.length xs) tl) <> None ->
  m (Quant lo hi a) c x <> None.
Proof.
  intros Hs Hg Hr Hacc Hlo Hhi Hc. cbn [m]. rewrite Hg.
  eapply rep_complete; eauto using fuel_enough.
Qed.

Lemma quant_greedy a q lo hi c x xs tl z :
  single_step (m a) q -> groups_in a = [] ->
  rest x = xs ++ tl -> accepted q xs tl ->
  (lo <= List.length xs)%nat -> within hi (List.length xs) ->
  stops q hi (List.length xs) tl ->
  c (advance x (List.length xs) tl) = Some z ->
  m (Quant lo hi a) c x = Some z.
Proof.
  intros Hs Hg Hr Hacc Hlo Hhi Hst Hc. cbn [m]. rewrite Hg.
  eapply rep_greedy; eauto using fuel_enough.
Qed.

Lemma chars_step (p : N -> bool) c x :
  m (Chars p) c x =
  match rest x with
  | [] => None
  | ch :: tl => if p ch then c (mkState (S (endIndex x)) tl (captures x)) else None
  end.
Proof. cbn [m]. destruct (rest x); reflexivity. Qed.

Lemma set_set_same g v w c : set_group g v (set_group g w c) = set_group g v c.
Proof. destruct g; reflexivity. Qed.

Lemma frame_nil x y : frame [] x y -> captures y = captures x.
Proof.
  intros H.
  pose proof (H Gproto (fun f => f)) as H1. pose proof (H Guser (fun f => f)) as H2.
  pose proof (H Gdomain (fun f => f)) as H3. pose proof (H Gport (fun f => f)) as H4.
  pose proof (H Gowner (fun f => f)) as H5. pose proof (H Grepo (fun f => f)) as H6.
  destruct (captures x), (captures y). cbn in *. congruence.
Qed.

Lemma frame_one g x y :
  frame [g] x y ->
  captures y = set_group g (get_group g (captures y)) (captures x).
Proof.
  intros H.
  assert (E : forall g', g' <> g ->
            get_group g' (captures y) = get_group g' (captures x)).
  { intros g' Hne. apply H. intros [Hin|[]]. congruence. }
  destruct (captures x), (captures y).
  destruct g; cbn in *;
    try rewrite (E Gproto) by discriminate; try rewrite (E Guser) by discriminate;
    try rewrite (E Gdomain) by discriminate; try rewrite (E Gport) by discriminate;
    try rewrite (E Gowner) by discriminate; try rewrite (E Grepo) by discriminate;
    try reflexivity;
    pose proof (E Gproto) as E1; pose proof (E Guser) as E2;
    pose proof (E Gdomain) as E3; pose proof (E Gport) as E4;
    pose proof (E Gowner) as E5; pose proof (E Grepo) as E6; cbn in *;
    f_equal; auto; try (apply E1; discriminate); try (apply E2; discriminate);
    try (apply E3; discriminate); try (apply E4; discriminate);
    try (apply E5; discriminate); try (apply E6; discriminate).
Qed.

Lemma named_run_sound g a q lo hi c x z :
  single_step (m a) q -> groups_in a = [] -> within hi lo ->
  m (Named g (Quant lo hi a)) c x = Some z ->
  exists xs tl,
    rest x = xs ++ tl /\ accepted q xs tl /\ (lo <= List.length xs)%nat
    /\ within hi (List.length xs)
    /\ c (mkState (endIndex x + List.length xs) tl
            (set_group g (Some xs) (captures x))) = Some z.
Proof.
  intros Hs Hg Hw H.
  change (m (Quant lo hi a) (fun y => c (capture g x y)) x = Some z) in H.
  apply (quant_sound a q) in H; auto.
  destruct H as (xs & tl & Hr & Hacc & Hlo & Hhi & Hc).
  exists xs, tl. rewrite (capture_advance g x xs tl Hr) in Hc. auto.
Qed.

Lemma named_run_greedy g a q lo hi c x xs tl z :
  single_step (m a) q -> groups_in a = [] ->
  rest x = xs ++ tl -> accepted q xs tl ->
  (lo <= List.length xs)%nat -> within hi (List.length xs) ->
  stops q hi (List.length xs) tl ->
  c (mkState (endIndex x + List.length xs) tl
       (set_group g (Some xs) (captures x))) = Some z ->
  m (Named g (Quant lo hi a)) c x = Some z.
Proof.
  intros Hs Hg Hr Hacc Hlo Hhi Hst Hc.
  change (m (Quant lo hi a) (fun y => c (capture g x y)) x = Some z).
  apply (quant_greedy a q lo hi _ x xs tl); auto.
  rewrite (capture_advance g x xs tl Hr). exact Hc.
Qed.

Lemma named_run_complete g a q lo hi c x xs tl :
  single_step (m a) q -> groups_in a = [] ->
  rest x = xs ++ tl -> accepted q xs tl ->
  (lo <= List.length xs)%nat -> within hi (List.length xs) ->
  c (mkState (endIndex x + List.length xs) tl
       (set_group g (Some xs) (captures x))) <> None ->
  m (Named g (Quant lo hi a)) c x <> None.
Proof.
  intros Hs Hg Hr Hacc Hlo Hhi Hc.
  change (m (Quant lo hi a) (fun y => c (capture g x y)) x <> None).
  apply (quant_complete a q lo hi _ x xs tl); auto.
  rewrite (capture_advance g x xs tl Hr). exact Hc.
Qed.

(* ================================================================== *)
(** ** What a successful parse tells about each group *)

Lemma exec_anchored (r : regex) (s : jsstring) :
  (forall i s', m r Some (mkState (S i) s' no_groups) = None) ->
  exec r s = m r Some (mkState 0 s no_groups).
Proof.
  intros Hanch. unfold exec.
  assert (H : forall s i, exec_from r (S i) s = None).
  { clear s. induction s as [|ch s IH]; intros i; cbn [exec_from];
      rewrite Hanch; auto. }
  destruct s as [|ch s]; cbn [exec_from].
  - destruct (m r Some _); reflexivity.
  - rewrite H. destruct (m r Some _); reflexivity.
Qed.

Lemma SSH_PATH_RE_unfold c x :
  m SSH_PATH_RE c x =
  m re_lead (m re_proto (m re_user (m re_domain (m re_port (m re_owner
    (m re_repo (m re_tail c))))))) x.
Proof. reflexivity. Qed.

Lemma exec_SSH_PATH_RE (s : jsstring) :
  exec SSH_PATH_RE s =
  m re_lead (m re_proto (m re_user (m re_domain (m re_port (m re_owner
    (m re_repo (m re_tail Some))))))) (mkState 0 s no_groups).
Proof.
  rewrite <- SSH_PATH_RE_unfold.
  apply exec_anchored. intros i s'. reflexivity.
Qed.

Lemma lead_sound c x z :
  m re_lead c x = Some z -> exists y, c y = Some z /\ captures y = captures x.
Proof.
  intros H. apply m_frame in H. destruct H as (y & Hc & Hf).
  exists y. split; auto. apply frame_nil. exact Hf.
Qed.

Lemma proto_sound c x z :
  m re_proto c x = Some z ->
  exists y v, c y = Some z /\ captures y = set_group Gproto v (captures x).
Proof.
  intros H. apply m_frame in H. destruct H as (y & Hc & Hf).
  exists y, (get_group Gproto (captures y)). split; auto.
  apply frame_one. exact Hf.
Qed.

Lemma tail_sound x z :
  m re_tail Some x = Some z -> captures z = captures x.
Proof.
  intros H. apply m_frame in H. destruct H as (y & Hc & Hf).
  injection Hc as ->. apply frame_nil. exact Hf.
Qed.

Lemma domain_sound c x z :
  m re_domain c x = Some z ->
  exists d tl,
    rest x = d ++ tl /\ is_domain d = true
    /\ c (mkState (endIndex x + List.length d) tl
            (set_group Gdomain (Some d) (captures x))) = Some z.
Proof.
  intros H. apply (named_run_sound _ _ (q_of p_dom)) in H;
    [|apply chars_single_step|reflexivity|exact I].
  destruct H as (d & tl & Hr & Hacc & Hlo & _ & Hc).
  exists d, tl. repeat split; auto.
  apply accepted_q_of in Hacc. destruct d; [simpl in Hlo; lia|exact Hacc].
Qed.

Lemma user_sound c x z :
  m re_user c x = Some z ->
  c x = Some z
  \/ exists y u, c y = Some z /\ is_user u = true
       /\ captures y = set_group Guser (Some u) (captures x).
Proof.
  unfold re_user. rewrite opt_unfold.
  change (clear_groups (groups_in re_user_body) x)
    with (mkState (endIndex x) (rest x) (set_group Guser None (captures x))).
  set (xc := mkState (endIndex x) (rest x) (set_group Guser None (captures x))).
  destruct (m re_user_body _ xc) eqn:H; [|auto].
  intros [= ->]. right.
  change (m (Chars p_az_)
            (m (Quant 1 None (Chars p_user))
               (fun y => m (chr "@")
                           (fun y0 => if Nat.eqb (endIndex y0) (endIndex x)
                                      then None else c y0)
                           (capture Guser xc y))) xc = Some z) in H.
  rewrite chars_step in H.
  destruct (rest xc) as [|a tl1] eqn:Hr; [discriminate|].
  destruct (p_az_ a) eqn:Ha; [|discriminate].
  apply (quant_sound _ (q_of p_user)) in H;
    [|apply chars_single_step|reflexivity|exact I].
  destruct H as (xs & tl & Hr1 & Hacc & Hlo & _ & H).
  cbn [rest] in Hr1. subst tl1.
  apply m_frame in H. destruct H as (y & H & Hf).
  destruct (Nat.eqb (endIndex y) (endIndex x)); [discriminate|].
  exists y, (a :: xs). split; [exact H|]. split.
  - apply accepted_q_of in Hacc. cbn [is_user]. rewrite Ha.
    destruct xs; [simpl in Hlo; lia|exact Hacc].
  - apply frame_nil in Hf. rewrite Hf.
    unfold capture, advance. cbn [captures endIndex rest].
    rewrite Hr. subst xc. cbn [captures endIndex rest]. rewrite set_set_same.
    replace (S (endIndex x) + List.length xs - endIndex x)%nat
      with (S (List.length xs)) by lia.
    cbn [firstn]. rewrite firstn_app, Nat.sub_diag, firstn_all. cbn [firstn].
    rewrite List.app_nil_r. reflexivity.
Qed.

Lemma port_sound c x z :
  m re_port c x = Some z ->
  c x = Some z
  \/ exists y ds, c y = Some z /\ is_port ds = true
       /\ captures y = set_group Gport (Some ds) (captures x).
Proof.
  unfold re_port. rewrite opt_unfold.
  change (clear_groups (groups_in re_port_body) x)
    with (mkState (endIndex x) (rest x) (set_group Gport None (captures x))).
  set (xc := mkState (endIndex x) (rest x) (set_group Gport None (captures x))).
  destruct (m re_port_body _ xc) eqn:H; [|auto].
  intros [= ->]. right.
  change (m (chr ":")
            (m (Named Gport (Quant 1 (Some 5%nat) (Chars p_digit)))
               (fun y0 => if Nat.eqb (endIndex y0) (endIndex x)
                          then None else c y0)) xc = Some z) in H.
  apply m_frame in H. destruct H as (x1 & H & Hf). apply frame_nil in Hf.
  apply (named_run_sound _ _ (q_of p_digit)) in H;
    [|apply chars_single_step|reflexivity|simpl; lia].
  destruct H as (ds & tl & Hr & Hacc & Hlo & Hhi & H).
  cbn [endIndex] in H.
  destruct (Nat.eqb _ (endIndex x)); [discriminate|].
  eexists; exists ds. split; [exact H|]. split.
  - apply accepted_q_of in Hacc. unfold is_port. rewrite Hacc.
    simpl in Hhi. destruct ds; [simpl in Hlo; lia|].
    apply Nat.leb_le. exact Hhi.
  - cbn [captures]. rewrite Hf. subst xc. cbn [captures].
    apply set_set_same.
Qed.

Lemma owner_sound c x z :
  m re_owner c x = Some z ->
  (c x = Some z
   /\ m re_owner_body
        (fun y => if Nat.eqb (endIndex y) (endIndex x) then None else c y)
        (mkState (endIndex x) (rest x) (set_group Gowner None (captures x)))
      = None)
  \/ exists y o, c y = Some z /\ is_domain o = true
       /\ captures y = set_group Gowner (Some o) (captures x).
Proof.
  unfold re_owner. rewrite opt_unfold.
  change (clear_groups (groups_in re_owner_body) x)
    with (mkState (endIndex x) (rest x) (set_group Gowner None (captures x))).
  set (xc := mkState (endIndex x) (rest x) (set_group Gowner None (captures x))).
  destruct (m re_owner_body _ xc) eqn:H; [|auto].
  intros [= ->]. right.
  change (m (Chars p_sep)
            (m (Named Gowner (Quant 1 None (Chars p_dom)))
               (fun y0 => if Nat.eqb (endIndex y0) (endIndex x)
                          then None else c y0)) xc = Some z) in H.
  apply m_frame in H. destruct H as (x1 & H & Hf). apply frame_nil in Hf.
  apply (named_run_sound _ _ (q_of p_dom)) in H;
    [|apply chars_single_step|reflexivity|exact I].
  destruct H as (o & tl & Hr & Hacc & Hlo & _ & H).
  cbn [endIndex] in H.
  destruct (Nat.eqb _ (endIndex x)); [discriminate|].
  eexists; exists o. split; [exact H|]. split.
  - apply accepted_q_of in Hacc. destruct o; [simpl in Hlo; lia|exact Hacc].
  - cbn [captures]. rewrite Hf. subst xc. cbn [captures].
    apply set_set_same.
Qed.

Lemma repo_sound c x z :
  m re_repo c x = Some z ->
  exists s r tl,
    rest x = s :: r ++ tl /\ p_sep s = true /\ r <> [] /\ accepted q_repo r tl
    /\ c (mkState (S (endIndex x) + List.length r) tl
            (set_group Grepo (Some r) (captures x))) = Some z.
Proof.
  intros H.
  change (m (Chars p_sep) (m (Named Grepo (Quant 1 None re_repo_atom)) c) x = Some z)
    in H.
  rewrite chars_step in H.
  destruct (rest x) as [|s tl1] eqn:Hr; [discriminate|].
  destruct (p_sep s) eqn:Hs; [|discriminate].
  apply (named_run_sound _ _ q_repo) in H;
    [|apply repo_atom_single_step|reflexivity|exact I].
  destruct H as (r & tl & Hr1 & Hacc & Hlo & _ & H).
  cbn [rest endIndex captures] in *. subst tl1.
  exists s, r, tl. repeat split; auto.
  intros ->. simpl in Hlo. lia.
Qed.

Lemma no_start_tail : no_start re_tail.
Proof. cbn. tauto. Qed.

Lemma tail_success_anywhere x x' :
  rest x' = rest x -> endIndex x' = endIndex x ->
  m re_tail Some x <> None -> m re_tail Some x' <> None.
Proof.
  intros Hr Hi H H'. apply H.
  assert (Hsh : shifted 0 x x') by (split; [congruence|lia]).
  apply (m_none_shift re_tail no_start_tail 0 Some Some x x' Hsh); auto.
  intros y y' _. split; discriminate.
Qed.

Lemma forallb_app_true {A} (f : A -> bool) xs ys :
  forallb f (xs ++ ys) = true -> forallb f xs = true /\ forallb f ys = true.
Proof. rewrite forallb_app, andb_true_iff. tauto. Qed.

(** When the match goes on without an owner, the attempt with an owner has
    failed: the repository text has no owner to split off. *)
Lemma owner_skipped_no_split x s r tl caps caps' :
  rest x = s :: r ++ tl -> p_sep s = true -> accepted q_repo r tl ->
  m re_tail Some (mkState (S (endIndex x) + List.length r) tl caps) <> None ->
  m re_owner_body
    (fun y => if Nat.eqb (endIndex y) (endIndex x) then None
              else m re_repo (m re_tail Some) y)
    (mkState (endIndex x) (rest x) caps') = None ->
  no_owner_split r.
Proof.
  intros Hr Hs Hacc Htail Hfail xo yr -> Hxo Hyr Hdom.
  revert Hfail.
  change (m re_owner_body ?d ?y)
    with (m (Chars p_sep) (m (Named Gowner (Quant 1 None (Chars p_dom))) d) y).
  rewrite chars_step. cbn [rest endIndex captures]. rewrite Hr, Hs.
  apply (named_run_complete _ _ (q_of p_dom) _ _ _ _ xo (47 :: yr ++ tl));
    [apply chars_single_step|reflexivity| | | |exact I|].
  - cbn [rest]. rewrite <- app_assoc. reflexivity.
  - apply accepted_q_of. exact Hdom.
  - destruct xo; [congruence|simpl; lia].
  - cbn [endIndex captures].
    rewrite (proj2 (Nat.eqb_neq _ _)) by lia.
    change (m re_repo ?k ?y)
      with (m (Chars p_sep) (m (Named Grepo (Quant 1 None re_repo_atom)) k) y).
    rewrite chars_step. cbn [rest endIndex captures].
    change (p_sep 47) with true. cbv iota.
    apply (named_run_complete _ _ q_repo _ _ _ _ yr tl);
      [apply repo_atom_single_step|reflexivity|reflexivity| | |exact I|].
    + apply accepted_app in Hacc. destruct Hacc as [_ [_ Hacc]]. exact Hacc.
    + destruct yr; [congruence|simpl; lia].
    + cbn [endIndex captures].
      eapply tail_success_anywhere; [| |exact Htail]; cbn [rest endIndex].
      * reflexivity.
      * rewrite length_app. simpl. lia.
Qed.

Lemma is_repo_of_accepted r tl :
  r <> [] -> accepted q_repo r tl -> is_repo r = true.
Proof.
  intros Hne Hacc. destruct r; [congruence|]. apply accepted_repo_chars in Hacc.
  exact Hacc.
Qed.

(** The groups after a successful [exec]. *)
Lemma parse_facts (s : jsstring) (z : state) :
  exec SSH_PATH_RE s = Some z -> well_parsed (captures z).
Proof.
  rewrite exec_SSH_PATH_RE. intros H.
  apply lead_sound in H. destruct H as (x1 & H & E1). cbn [captures] in E1.
  apply proto_sound in H. destruct H as (x2 & v & H & E2). rewrite E1 in E2.
  assert (Hu : exists x3, m re_domain (m re_port (m re_owner (m re_repo
                 (m re_tail Some)))) x3 = Some z
               /\ g_domain (captures x3) = None /\ g_port (captures x3) = None
               /\ g_owner (captures x3) = None /\ g_repo (captures x3) = None
               /\ (g_user (captures x3) = None
                   \/ exists u, g_user (captures x3) = Some u /\ is_user u = true)).
  { apply user_sound in H. destruct H as [H|(x3 & u & H & Hu & E3)].
    - exists x2. split; [exact H|]. rewrite E2.
      repeat split; try reflexivity. left. reflexivity.
    - exists x3. split; [exact H|]. rewrite E3, E2.
      repeat split; try reflexivity. right. exists u. split; [reflexivity|exact Hu]. }
  clear H x1 x2 v E1 E2.
  destruct Hu as (x3 & H & D3 & P3 & O3 & R3 & U3).
  apply domain_sound in H. destruct H as (d & tl4 & _ & Hd & H).
  set (x4 := mkState _ tl4 _) in H.
  assert (Hp : exists x5, m re_owner (m re_repo (m re_tail Some)) x5 = Some z
               /\ g_user (captures x5) = g_user (captures x3)
               /\ g_domain (captures x5) = Some d
               /\ g_owner (captures x5) = None
               /\ (g_port (captures x5) = None
                   \/ exists ds, g_port (captures x5) = Some ds
                                 /\ is_port ds = true)).
  { apply port_sound in H. destruct H as [H|(x5 & ds & H & Hds & E5)].
    - exists x4. split; [exact H|]. subst x4. cbn [captures].
      destruct (captures x3).
      cbn [g_user g_domain g_port g_owner g_repo g_proto set_group] in *.
      repeat split; auto.
    - exists x5. split; [exact H|]. rewrite E5. subst x4. cbn [captures].
      destruct (captures x3).
      cbn [g_user g_domain g_port g_owner g_repo g_proto set_group] in *.
      repeat split; auto. right. exists ds. auto. }
  clear H. destruct Hp as (x5 & H & U5 & D5 & O5 & P5).
  rewrite <- U5 in U3. clearbody x4. clear U5 D3 P3 O3 R3 x4 x3.
  apply owner_sound in H.
  destruct H as [[H Hfail]|(x6 & o & H & Ho & E6)];
    apply repo_sound in H;
    destruct H as (sp & r & tl & Hr & Hs & Hne & Hacc & H);
    pose proof (tail_sound _ _ H) as Ez; cbn [captures] in Ez; rewrite Ez.
  - destruct (captures x5) eqn:Ecap.
    cbn [g_user g_domain g_port g_owner g_repo g_proto set_group] in *.
    split; [exact U3|]. split; [exists d; auto|]. split; [exact P5|].
    exists r. split; [reflexivity|]. split; [eapply is_repo_of_accepted; eauto|].
    left. split; [exact O5|].
    eapply (owner_skipped_no_split x5); eauto.
    rewrite H. discriminate.
  - rewrite E6. destruct (captures x5) eqn:Ecap.
    cbn [g_user g_domain g_port g_owner g_repo g_proto set_group] in *.
    split; [exact U3|]. split; [exists d; auto|]. split; [exact P5|].
    exists r. split; [reflexivity|]. split; [eapply is_repo_of_accepted; eauto|].
    right. exists o. auto.
Qed.

(* ================================================================== *)
(** ** Running [SSH_PATH_RE] on a canonical path *)

Lemma stops_at q hi n ch tl : q ch tl = false -> stops q hi n (ch :: tl).
Proof. intros H. right. right. exists ch, tl. auto. Qed.

Lemma neq_eqb_false (a b : nat) : a <> b -> Nat.eqb a b = false.
Proof. apply Nat.eqb_neq. Qed.

Lemma eat_char (r : regex) (p : N -> bool) c x ch tl :
  r = Chars p -> rest x = ch :: tl -> p ch = true ->
  m r c x = c (mkState (S (endIndex x)) tl (captures x)).
Proof. intros -> Hr Hp. rewrite chars_step, Hr, Hp. reflexivity. Qed.

Ltac eat := erewrite eat_char; [|reflexivity|reflexivity|reflexivity].

Lemma lead_fwd c x z ch tl :
  endIndex x = 0%nat -> rest x = ch :: tl -> p_ws ch = false ->
  c x = Some z -> m re_lead c x = Some z.
Proof.
  intros Hi Hr Hch Hc.
  change (m re_lead c x) with (m Start (m (Quant 0 None (Chars p_ws)) c) x).
  cbn [m]. rewrite Hi. cbn [Nat.eqb].
  apply (rep_greedy _ (q_of p_ws) (chars_single_step p_ws) [] _ _ _ _ _ (rest x));
    auto using fuel_enough.
  - exact I.
  - exact I.
  - rewrite Hr. apply stops_at. exact Hch.
  - rewrite advance_0. exact Hc.
Qed.

Lemma proto_fwd c x z tl :
  rest x = str "ssh://" ++ tl ->
  c (mkState (endIndex x + 6) tl
       (set_group Gproto (Some (str "ssh")) (captures x))) = Some z ->
  m re_proto c x = Some z.
Proof.
  intros Hr Hc. unfold re_proto. rewrite opt_unfold.
  change (clear_groups (groups_in re_proto_body) x)
    with (mkState (endIndex x) (rest x) (set_group Gproto None (captures x))).
  change (m re_proto_body ?d ?y)
    with (m (Named Gproto (Quant 1 None (Chars p_az)))
            (m (chr ":") (m (chr "/") (m (chr "/") d))) y).
  rewrite (named_run_greedy _ _ (q_of p_az) _ _ _ _ (str "ssh") (str "://" ++ tl) z);
    auto using chars_single_step.
  - apply accepted_q_of. reflexivity.
  - simpl. lia.
  - exact I.
  - apply stops_at. reflexivity.
  - do 3 eat.
    cbn [endIndex captures List.length].
    rewrite neq_eqb_false by lia.
    rewrite set_set_same.
    rewrite <- Hc. f_equal. f_equal. simpl. lia.
Qed.

Lemma user_fwd c x z u tl :
  rest x = u ++ 64 :: tl -> is_user u = true ->
  c (mkState (endIndex x + List.length u + 1) tl
       (set_group Guser (Some u) (captures x))) = Some z ->
  m re_user c x = Some z.
Proof.
  intros Hr Hu Hc. unfold re_user. rewrite opt_unfold.
  change (clear_groups (groups_in re_user_body) x)
    with (mkState (endIndex x) (rest x) (set_group Guser None (captures x))).
  set (xc := mkState (endIndex x) (rest x) (set_group Guser None (captures x))).
  destruct u as [|a [|b u]]; try discriminate.
  cbn [is_user] in Hu. apply andb_true_iff in Hu. destruct Hu as [Ha Hu].
  change (m re_user_body ?d xc)
    with (m (Chars p_az_)
            (m (Quant 1 None (Chars p_user))
               (fun y => m (chr "@") d (capture Guser xc y))) xc).
  rewrite chars_step. subst xc. cbn [rest endIndex captures].
  rewrite Hr. cbn [app]. rewrite Ha.
  rewrite (quant_greedy _ (q_of p_user) _ _ _ _ (b :: u) (64 :: tl) z);
    auto using chars_single_step.
  - apply accepted_q_of. exact Hu.
  - simpl. lia.
  - exact I.
  - apply stops_at. reflexivity.
  - unfold capture, advance. cbn [rest endIndex captures].
    eat. cbn [rest endIndex captures].
    rewrite neq_eqb_false by (simpl; lia).
    rewrite set_set_same. rewrite <- Hc. f_equal. f_equal.
    + simpl. lia.
    + f_equal. f_equal.
      replace (S (endIndex x) + List.length (b :: u) - endIndex x)%nat
        with (List.length (a :: b :: u) + 0)%nat by (cbn [List.length]; lia).
      change (a :: b :: u ++ 64 :: tl) with ((a :: b :: u) ++ 64 :: tl).
      rewrite firstn_app_2. simpl. rewrite List.app_nil_r. reflexivity.
Qed.

Lemma domain_fwd c x z d ch tl :
  rest x = d ++ ch :: tl -> is_domain d = true -> p_dom ch = false ->
  c (mkState (endIndex x + List.length d) (ch :: tl)
       (set_group Gdomain (Some d) (captures x))) = Some z ->
  m re_domain c x = Some z.
Proof.
  intros Hr Hd Hch Hc.
  change (m (Named Gdomain (Quant 1 None (Chars p_dom))) c x = Some z).
  apply (named_run_greedy _ _ (q_of p_dom) _ _ _ _ d (ch :: tl));
    auto using chars_single_step.
  - apply accepted_q_of. destruct d; [discriminate|exact Hd].
  - destruct d; [discriminate|simpl; lia].
  - exact I.
  - apply stops_at. exact Hch.
Qed.

Lemma port_fwd c x z P ch tl :
  rest x = 58 :: P ++ ch :: tl -> is_port P = true -> p_digit ch = false ->
  c (mkState (endIndex x + 1 + List.length P) (ch :: tl)
       (set_group Gport (Some P) (captures x))) = Some z ->
  m re_port c x = Some z.
Proof.
  intros Hr HP Hch Hc. unfold re_port. rewrite opt_unfold.
  change (clear_groups (groups_in re_port_body) x)
    with (mkState (endIndex x) (rest x) (set_group Gport None (captures x))).
  change (m re_port_body ?d ?y)
    with (m (chr ":") (m (Named Gport (Quant 1 (Some 5%nat) (Chars p_digit))) d) y).
  rewrite Hr. eat.
  destruct P as [|p0 P]; [discriminate|].
  unfold is_port in HP. apply andb_true_iff in HP. destruct HP as [HP Hlen].
  apply Nat.leb_le in Hlen.
  rewrite (named_run_greedy _ _ (q_of p_digit) _ _ _ _ (p0 :: P) (ch :: tl) z);
    auto using chars_single_step.
  - apply accepted_q_of. exact HP.
  - simpl. lia.
  - apply stops_at. exact Hch.
  - cbn [endIndex captures]. rewrite neq_eqb_false by lia.
    rewrite set_set_same. rewrite <- Hc. f_equal. f_equal. lia.
Qed.

Lemma owner_fwd c x z o ch tl :
  rest x = 47 :: o ++ ch :: tl -> is_domain o = true -> p_dom ch = false ->
  c (mkState (endIndex x + 1 + List.length o) (ch :: tl)
       (set_group Gowner (Some o) (captures x))) = Some z ->
  m re_owner c x = Some z.
Proof.
  intros Hr Ho Hch Hc. unfold re_owner. rewrite opt_unfold.
  change (clear_groups (groups_in re_owner_body) x)
    with (mkState (endIndex x) (rest x) (set_group Gowner None (captures x))).
  change (m re_owner_body ?d ?y)
    with (m (Chars p_sep) (m (Named Gowner (Quant 1 None (Chars p_dom))) d) y).
  rewrite Hr. eat.
  destruct o as [|o0 o]; [discriminate|].
  rewrite (named_run_greedy _ _ (q_of p_dom) _ _ _ _ (o0 :: o) (ch :: tl) z);
    auto using chars_single_step.
  - apply accepted_q_of. exact Ho.
  - simpl. lia.
  - exact I.
  - apply stops_at. exact Hch.
  - cbn [endIndex captures]. rewrite neq_eqb_false by lia.
    rewrite set_set_same. rewrite <- Hc. f_equal. f_equal. lia.
Qed.

Lemma chars_sound (p : N -> bool) c x z :
  m (Chars p) c x = Some z ->
  exists ch tl,
    rest x = ch :: tl /\ p ch = true
    /\ c (mkState (S (endIndex x)) tl (captures x)) = Some z.
Proof.
  rewrite chars_step. destruct (rest x) as [|ch tl]; [discriminate|].
  destruct (p ch) eqn:Hp; [|discriminate]. intros H. exists ch, tl. auto.
Qed.

(** What [git\/?\s*$] matches. *)
Lemma git_end_sound x s :
  m re_git_end Some x = Some s ->
  exists c1 c2 c3 sl ws,
    rest x = c1 :: c2 :: c3 :: sl ++ ws
    /\ in_set_i (one 103) c1 = true /\ in_set_i (one 105) c2 = true
    /\ in_set_i (one 116) c3 = true
    /\ (sl = [] \/ exists c4, sl = [c4] /\ in_set_i (one 47) c4 = true)
    /\ forallb p_ws ws = true.
Proof.
  intros H.
  change (m (Chars (in_set_i (one 103)))
            (m (Chars (in_set_i (one 105)))
               (m (Chars (in_set_i (one 116)))
                  (m (opt (Chars (in_set_i (one 47))))
                     (m (Quant 0 None (Chars p_ws)) (m End Some))))) x = Some s)
    in H.
  apply chars_sound in H. destruct H as (c1 & t1 & Hr1 & H1 & H).
  apply chars_sound in H. destruct H as (c2 & t2 & Hr2 & H2 & H).
  apply chars_sound in H. destruct H as (c3 & t3 & Hr3 & H3 & H).
  cbn [rest endIndex captures] in *. subst t1 t2.
  assert (Hws : forall y, m (Quant 0 None (Chars p_ws)) (m End Some) y = Some s ->
                          forallb p_ws (rest y) = true).
  { intros y Hy.
    apply (quant_sound _ (q_of p_ws)) in Hy;
      [|apply chars_single_step|reflexivity|exact I].
    destruct Hy as (ws & tl & Hr & Hacc & _ & _ & Hy).
    cbn [m advance rest] in Hy. destruct tl; [|discriminate].
    rewrite Hr, List.app_nil_r. apply accepted_q_of in Hacc. exact Hacc. }
  rewrite opt_unfold in H.
  change (groups_in (Chars (in_set_i (one 47)))) with (@nil gname) in H.
  rewrite clear_no_groups in H.
  destruct (m (Chars (in_set_i (one 47))) _ _) eqn:E in H.
  - injection H as ->. apply chars_sound in E.
    destruct E as (c4 & t4 & Hr4 & H4 & E). cbn [rest endIndex captures] in *.
    destruct (Nat.eqb _ _) in E; [discriminate|].
    apply Hws in E. cbn [rest] in E. subst t3.
    exists c1, c2, c3, [c4], t4. rewrite Hr1. repeat split; auto.
    right. exists c4. auto.
  - apply Hws in H. cbn [rest] in H.
    exists c1, c2, c3, [], t3. rewrite Hr1. repeat split; auto.
Qed.

(** Inside a canonical path the lookahead never finds the end of the text:
    the text ends with [.git], and a dot is neither a slash nor white space. *)
Lemma lookahead_fails_before_dotgit (ys : jsstring) :
  lookahead_fails (ys ++ str ".git") = true.
Proof.
  unfold lookahead_fails.
  destruct (m re_git_end Some _) eqn:H; [exfalso|reflexivity].
  apply git_end_sound in H.
  destruct H as (c1 & c2 & c3 & sl & ws & Hr & H1 & H2 & H3 & Hsl & Hws).
  cbn [rest] in Hr.
  assert (Hin : In 46 (ys ++ str ".git")).
  { apply in_or_app. right. left. reflexivity. }
  rewrite Hr in Hin.
  assert (Hno : forall p, p 46 = false -> forall ch, p ch = true -> ch <> 46).
  { intros p Hp ch Hch E. subst ch. congruence. }
  destruct Hin as [E|[E|[E|Hin]]].
  - revert E. apply (Hno (in_set_i (one 103))); auto.
  - revert E. apply (Hno (in_set_i (one 105))); auto.
  - revert E. apply (Hno (in_set_i (one 116))); auto.
  - apply in_app_or in Hin. destruct Hin as [Hin|Hin].
    + destruct Hsl as [->|(c4 & -> & H4)]; [contradiction|].
      destruct Hin as [E|[]]. revert E. apply (Hno (in_set_i (one 47))); auto.
    + rewrite forallb_forall in Hws. specialize (Hws 46 Hin). discriminate.
Qed.

Lemma repo_accepted_canonical (r : jsstring) :
  forallb repo_char r = true -> accepted q_repo r (str ".git").
Proof.
  induction r as [|a r IH]; [intros; exact I|].
  cbn [forallb accepted]. intros H. apply andb_true_iff in H. destruct H as [Ha Hr].
  split; [|auto].
  unfold q_repo. unfold repo_char in Ha.
  destruct (p_repo1 a); [reflexivity|]. cbn [orb] in *.
  apply N.eqb_eq in Ha. subst a.
  rewrite lookahead_fails_before_dotgit. reflexivity.
Qed.

Lemma repo_fwd c x z r :
  rest x = 47 :: r ++ str ".git" -> is_repo r = true ->
  c (mkState (endIndex x + 1 + List.length r) (str ".git")
       (set_group Grepo (Some r) (captures x))) = Some z ->
  m re_repo c x = Some z.
Proof.
  intros Hr Hrepo Hc.
  change (m (Chars p_sep) (m (Named Grepo (Quant 1 None re_repo_atom)) c) x = Some z).
  rewrite (eat_char _ p_sep _ _ 47 (r ++ str ".git") eq_refl Hr eq_refl).
  destruct r as [|r0 r]; [discriminate|].
  apply (named_run_greedy _ _ q_repo _ _ _ _ (r0 :: r) (str ".git"));
    auto using repo_atom_single_step.
  - apply repo_accepted_canonical. exact Hrepo.
  - simpl. lia.
  - exact I.
  - apply stops_at. vm_compute. reflexivity.
  - cbn [endIndex captures]. rewrite <- Hc. f_equal. f_equal. lia.
Qed.

Lemma tail_fwd x :
  rest x = str ".git" ->
  m re_tail Some x = Some (mkState (endIndex x + 4) [] (captures x)).
Proof.
  intros Hr.
  change (m re_tail Some x)
    with (m (opt (Cat any_char (Cat (chr "g") (Cat (chr "i") (chr "t")))))
            (m (opt (chr "/")) (m (Quant 0 None (Chars p_ws)) (m End Some))) x).
  rewrite opt_unfold.
  change (clear_groups _ x) with (mkState (endIndex x) (rest x) (captures x)).
  change (m (Cat any_char (Cat (chr "g") (Cat (chr "i") (chr "t")))) ?d ?y)
    with (m any_char (m (chr "g") (m (chr "i") (m (chr "t") d))) y).
  rewrite Hr. do 4 eat. cbn [endIndex captures].
  rewrite neq_eqb_false by lia.
  replace (endIndex x + 4)%nat with (S (S (S (S (endIndex x))))) by lia.
  reflexivity.
Qed.

(** On a canonical path without owner, the attempt to read an owner fails:
    it would split the repository text. *)
Lemma owner_none_canonical x r e :
  rest x = 47 :: r ++ str ".git" -> is_repo r = true -> no_owner_split r ->
  m re_owner_body
    (fun y => if Nat.eqb (endIndex y) e then None
              else m re_repo (m re_tail Some) y) x = None.
Proof.
  intros Hr Hrepo Hsplit.
  destruct (m re_owner_body _ x) eqn:H; [exfalso|reflexivity].
  change (m (Chars p_sep)
            (m (Named Gowner (Quant 1 None (Chars p_dom)))
               (fun y => if Nat.eqb (endIndex y) e then None
                         else m re_repo (m re_tail Some) y)) x = Some s) in H.
  apply chars_sound in H. destruct H as (s0 & t1 & Hr1 & _ & H).
  rewrite Hr in Hr1. injection Hr1 as <- <-.
  apply (named_run_sound _ _ (q_of p_dom)) in H;
    [|apply chars_single_step|reflexivity|exact I].
  destruct H as (xo & tl & Hr2 & Hxo & Hlo & _ & H).
  cbn [rest endIndex captures] in *.
  destruct (Nat.eqb _ e) in H; [discriminate|].
  apply repo_sound in H.
  destruct H as (sp & r2 & tl2 & Hr3 & Hsp & Hne & Hacc & _).
  cbn [rest] in Hr3. subst tl.
  apply accepted_q_of in Hxo.
  assert (Hrc : forallb repo_char r = true) by (destruct r; [discriminate|exact Hrepo]).
  apply app_eq_app in Hr2. destruct Hr2 as (l & [[E1 E2]|[E1 E2]]).
  - (* the separator lies in the repository text or is the dot *)
    destruct l as [|l0 l].
    + cbn [app] in E2. injection E2 as E2 _. subst sp.
      vm_compute in Hsp. discriminate.
    + cbn [app] in E2. injection E2 as <- E2.
      rewrite E1 in Hrc. apply forallb_app_true in Hrc. destruct Hrc as [_ Hrc].
      cbn [forallb] in Hrc. apply andb_true_iff in Hrc. destruct Hrc as [Hsp' _].
      apply p_sep_spec in Hsp.
      destruct Hsp as [Hsp|Hsp]; subst sp;
        [|apply repo_char_not_colon in Hsp'; congruence].
      destruct l as [|l1 l].
      * cbn [app] in E2. destruct r2 as [|a r2]; [congruence|].
        cbn [app] in E2. injection E2 as E0 E2. subst a.
        destruct Hacc as [Hq _]. rewrite E2 in Hq. vm_compute in Hq. discriminate.
      * apply (Hsplit xo (l1 :: l)); auto.
        -- intros ->. simpl in Hlo. lia.
        -- discriminate.
  - (* the separator would lie in the final [.git] *)
    assert (Hin : In sp [46; 103; 105; 116]).
    { rewrite E2. apply in_or_app. right. left. reflexivity. }
    cbn [In] in Hin. destruct Hin as [<-|[<-|[<-|[<-|[]]]]]; discriminate.
Qed.

Lemma is_user_not_ws u : is_user u = true -> exists a u', u = a :: u'.
Proof. destruct u; [discriminate|eauto]. Qed.

(** The match of [SSH_PATH_RE] on a canonical path gives back the parts
    the path was built from. *)
Lemma canonical_parse u d P o r :
  is_user u = true -> is_domain d = true -> is_port P = true ->
  is_repo r = true ->
  (o = [] /\ no_owner_split r) \/ is_domain o = true ->
  exists z,
    exec SSH_PATH_RE (canonical_text u d P o r) = Some z
    /\ captures z = canonical_groups u d P o r.
Proof.
  intros Hu Hd HP Hr Ho. rewrite exec_SSH_PATH_RE. unfold canonical_text.
  assert (Hpre : forall rst c z,
    c (mkState (0 + 6 + List.length u + 1 + List.length d + 1 + List.length P)
         (47 :: rst)
         (set_group Gport (Some P) (set_group Gdomain (Some d)
            (set_group Guser (Some u) (set_group Gproto (Some (str "ssh"))
               no_groups))))) = Some z ->
    m re_lead (m re_proto (m re_user (m re_domain (m re_port c))))
      (mkState 0 (str "ssh://" ++ u ++ str "@" ++ d ++ str ":" ++ P ++ str "/" ++ rst)
         no_groups) = Some z).
  { intros rst c z Hc.
    apply (lead_fwd _ _ _ 115 (str "sh://" ++ u ++ str "@" ++ d ++ str ":" ++ P
             ++ str "/" ++ rst)); [reflexivity|reflexivity|reflexivity|].
    eapply proto_fwd; [reflexivity|].
    eapply (user_fwd _ _ _ u); [reflexivity|exact Hu|].
    eapply (domain_fwd _ _ _ d 58); [reflexivity|exact Hd|reflexivity|].
    eapply (port_fwd _ _ _ P 47); [reflexivity|exact HP|reflexivity|].
    exact Hc. }
  destruct Ho as [[-> Hsplit]|Ho].
  - eexists. split.
    + apply Hpre. unfold re_owner. rewrite opt_unfold.
      erewrite (owner_none_canonical _ r); [|reflexivity|exact Hr|exact Hsplit].
      eapply (repo_fwd _ _ _ r); [reflexivity|exact Hr|].
      apply tail_fwd. reflexivity.
    + reflexivity.
  - destruct o as [|o0 o]; [discriminate|].
    eexists. split.
    + apply Hpre.
      eapply (owner_fwd _ _ _ (o0 :: o) 47); [reflexivity|exact Ho|reflexivity|].
      eapply (repo_fwd _ _ _ r); [reflexivity|exact Hr|].
      apply tail_fwd. reflexivity.
    + reflexivity.
Qed.

(* ================================================================== *)
(** ** Port numbers: [Number] and [String] on decimal digits *)

Lemma p_digit_spec ch : p_digit ch = true <-> 48 <= ch <= 57.
Proof.
  unfold p_digit. rewrite set_digit_caseless. unfold set_digit, range.
  rewrite andb_true_iff, !N.leb_le. tauto.
Qed.

Lemma digit_of_digit ch :
  p_digit ch = true ->
  exists f, digit_of ch = Some f
            /\ forall u, digits_of_uint (f u) = ch :: digits_of_uint u.
Proof.
  intros H. apply p_digit_spec in H.
  assert (E : ch = 48 \/ ch = 49 \/ ch = 50 \/ ch = 51 \/ ch = 52 \/ ch = 53
              \/ ch = 54 \/ ch = 55 \/ ch = 56 \/ ch = 57) by lia.
  repeat (destruct E as [E|E]; [subst ch; eexists; split; [reflexivity|reflexivity]|]).
  subst ch; eexists; split; reflexivity.
Qed.

Lemma digit_of_nb ch f :
  digit_of ch = Some f -> forall u, Decimal.nb_digits (f u) = S (Decimal.nb_digits u).
Proof.
  unfold digit_of. intros H u.
  repeat match type of H with
  | match ?c with _ => _ end = _ => destruct c; try discriminate
  end; injection H as <-; reflexivity.
Qed.

Lemma uint_of_digits_ok ds :
  forallb p_digit ds = true ->
  exists u, uint_of_digits ds = Some u
            /\ digits_of_uint u = ds
            /\ Decimal.nb_digits u = List.length ds.
Proof.
  induction ds as [|ch ds IH]; intros H.
  - exists Decimal.Nil. auto.
  - cbn [forallb] in H. apply andb_true_iff in H. destruct H as [Hch Hds].
    destruct (IH Hds) as (u & Eu & Ed & En).
    destruct (digit_of_digit ch Hch) as (f & Ef & Hf).
    exists (f u). cbn [uint_of_digits]. rewrite Ef, Eu.
    split; [reflexivity|]. split.
    + rewrite Hf, Ed. reflexivity.
    + rewrite (digit_of_nb ch f Ef). cbn [List.length]. congruence.
Qed.

Lemma digits_of_uint_ok u :
  forallb p_digit (digits_of_uint u) = true
  /\ uint_of_digits (digits_of_uint u) = Some u
  /\ List.length (digits_of_uint u) = Decimal.nb_digits u.
Proof.
  induction u as [|u IH|u IH|u IH|u IH|u IH|u IH|u IH|u IH|u IH|u IH];
    [repeat split| | | | | | | | | |];
    destruct IH as (H1 & H2 & H3);
    cbn [digits_of_uint forallb uint_of_digits List.length Decimal.nb_digits];
    rewrite H1, H2, H3; repeat split.
Qed.

Lemma of_lu_bound u : DecimalPos.Unsigned.of_lu u < 10 ^ N.of_nat (Decimal.nb_digits u).
Proof.
  induction u; cbn [DecimalPos.Unsigned.of_lu Decimal.nb_digits];
    rewrite ?Nat2N.inj_succ, ?N.pow_succ_r'; lia.
Qed.

Lemma of_uint_bound u : N.of_uint u < 10 ^ N.of_nat (Decimal.nb_digits u).
Proof.
  change (N.of_uint u) with (Pos.of_uint u).
  rewrite DecimalPos.Unsigned.of_uint_alt.
  rewrite <- (DecimalFacts.nb_digits_rev u). apply of_lu_bound.
Qed.

(** The text of a port group is a number below 100000. *)
Lemma Number_port ds :
  is_port ds = true -> exists n, Number ds = Int n /\ n <= 99999.
Proof.
  intros H. destruct ds as [|d0 ds]; [discriminate|].
  unfold is_port in H. apply andb_true_iff in H. destruct H as [Hd Hlen].
  apply Nat.leb_le in Hlen.
  destruct (uint_of_digits_ok _ Hd) as (u & Eu & _ & En).
  unfold Number. rewrite Eu. eexists. split; [reflexivity|].
  pose proof (of_uint_bound u) as B. rewrite En in B.
  assert (10 ^ N.of_nat (List.length (d0 :: ds)) <= 10 ^ 5).
  { apply N.pow_le_mono_r; lia. }
  change (10 ^ 5) with 100000 in *. lia.
Qed.

(** Printing the port and reading it again gives the same number, and the
    printed text is again the text of a port group. *)
Lemma String_of_port ds n :
  is_port ds = true -> Number ds = Int n ->
  is_port (String_of_number (Int n)) = true
  /\ Number (String_of_number (Int n)) = Int n.
Proof.
  intros H HN. destruct ds as [|d0 ds]; [discriminate|].
  unfold is_port in H. apply andb_true_iff in H. destruct H as [Hd Hlen].
  apply Nat.leb_le in Hlen.
  destruct (uint_of_digits_ok _ Hd) as (u & Eu & _ & En).
  unfold Number in HN. rewrite Eu in HN. injection HN as <-.
  cbn [String_of_number]. rewrite DecimalN.Unsigned.to_of.
  destruct (digits_of_uint_ok (Decimal.unorm u)) as (H1 & H2 & H3).
  assert (Hne : u <> Decimal.Nil).
  { intros ->. simpl in En. discriminate. }
  split.
  - unfold is_port.
    destruct (digits_of_uint (Decimal.unorm u)) as [|p0 P] eqn:E.
    + exfalso. simpl in H3. symmetry in H3.
      apply DecimalFacts.nb_digits_0 in H3.
      revert H3. apply DecimalFacts.unorm_nonnil.
    + rewrite H1. cbn [andb]. apply Nat.leb_le. rewrite H3.
      pose proof (DecimalFacts.nb_digits_unorm u Hne). lia.
  - unfold Number. rewrite H2. rewrite DecimalN.Unsigned.of_uint_norm. reflexivity.
Qed.

(* ================================================================== *)
(** ** The parser: examples, port range, round trip *)

Lemma sanitize_canonical u d P o r :
  is_user u = true -> is_domain d = true -> is_port P = true ->
  is_repo r = true ->
  (o = [] /\ no_owner_split r) \/ is_domain o = true ->
  sanitizeRepoPathSSH (canonical_text u d P o r)
  = Ok (mkLoc u (Some d) (Number P) o (Some r)).
Proof.
  intros Hu Hd HP Hr Ho.
  destruct (canonical_parse u d P o r Hu Hd HP Hr Ho) as (z & E & C).
  unfold sanitizeRepoPathSSH. rewrite E, C. unfold canonical_groups.
  cbn [g_user g_domain g_port g_owner g_repo nullish].
  destruct o; reflexivity.
Qed.

(** C9: the two example references of the spec parse to the stated
    components. *)
Theorem sanitizeRepoPathSSH_examples :
  sanitizeRepoPathSSH (str "git@github.com:owner/repo.git")
  = Ok (mkLoc (str "git") (Some (str "github.com")) (Int 22) (str "owner")
          (Some (str "repo")))
  /\ sanitizeRepoPathSSH (str "ssh://deploy@git.example.com:2222/team/app")
     = Ok (mkLoc (str "deploy") (Some (str "git.example.com")) (Int 2222)
             (str "team") (Some (str "app"))).
Proof. split; vm_compute; reflexivity. Qed.

(** C5, as stated, fails: a port of five digits above 65535 is accepted and
    returned as it is. *)
Lemma sanitizeRepoPathSSH_port_out_of_range :
  exists l,
    sanitizeRepoPathSSH (str "git@github.com:70000/owner/repo.git") = Ok l
    /\ port l = Int 70000 /\ ~ (1 <= 70000 <= 65535).
Proof.
  eexists. split; [vm_compute; reflexivity|]. split; [reflexivity|]. lia.
Qed.

(** C5, amended: on success the port is an integer between 0 and 99999 (22
    when the input has no port, otherwise the value of its one to five
    digits), the user is [git] and the owner is empty when the input has
    none, and the domain and the repository are present. *)
Theorem sanitizeRepoPathSSH_port_and_defaults (input : jsstring) (l : SSHLocation) :
  sanitizeRepoPathSSH input = Ok l ->
  exists found,
    exec SSH_PATH_RE input = Some found
    /\ (exists n, port l = Int n /\ n <= 99999)
    /\ (g_port (captures found) = None -> port l = Int 22)
    /\ (forall ds, g_port (captures found) = Some ds -> port l = Number ds)
    /\ user l = nullish (str "git") (g_user (captures found))
    /\ owner l = nullish [] (g_owner (captures found))
    /\ (exists d, domain l = Some d /\ d <> [])
    /\ (exists r, repo l = Some r /\ r <> []).
Proof.
  unfold sanitizeRepoPathSSH. destruct (exec SSH_PATH_RE input) as [z|] eqn:E;
    [|discriminate].
  intros [= <-]. exists z. split; [reflexivity|].
  destruct (parse_facts _ _ E) as (_ & (d & Ed & Hd) & HP & (r & Er & Hr & _)).
  cbn [port user owner domain repo]. rewrite Ed, Er.
  split; [|split; [|split; [|split; [|split; [|split]]]]].
  - destruct HP as [->|(ds & -> & Hds)].
    + exists 22. split; [reflexivity|lia].
    + apply Number_port. exact Hds.
  - intros ->. reflexivity.
  - intros ds ->. reflexivity.
  - reflexivity.
  - reflexivity.
  - exists d. split; [reflexivity|]. intros ->. discriminate.
  - exists r. split; [reflexivity|]. intros ->. discriminate.
Qed.

Lemma sanitizeRepoPathSSH_port_and_defaults_witness :
  exists found,
    exec SSH_PATH_RE (str "host:0022/repo") = Some found
    /\ (exists n, Int 22 = Int n /\ n <= 99999)
    /\ (g_port (captures found) = None -> Int 22 = Int 22)
    /\ (forall ds, g_port (captures found) = Some ds -> Int 22 = Number ds)
    /\ str "git" = nullish (str "git") (g_user (captures found))
    /\ [] = nullish [] (g_owner (captures found))
    /\ (exists d, Some (str "host") = Some d /\ d <> [])
    /\ (exists r, Some (str "repo") = Some r /\ r <> []).
Proof.
  apply (sanitizeRepoPathSSH_port_and_defaults (str "host:0022/repo")
           (mkLoc (str "git") (Some (str "host")) (Int 22) [] (Some (str "repo")))).
  vm_compute. reflexivity.
Defined.

(** C6: parsing a reference, rebuilding the canonical URL with [repoPath]
    and parsing that URL gives the same components again. *)
Theorem sanitizeRepoPathSSH_repoPath_round_trip (input : jsstring) (l : SSHLocation) :
  sanitizeRepoPathSSH input = Ok l ->
  sanitizeRepoPathSSH (repoPath l) = Ok l.
Proof.
  unfold sanitizeRepoPathSSH at 1.
  destruct (exec SSH_PATH_RE input) as [z|] eqn:E; [|discriminate].
  intros [= <-].
  destruct (parse_facts _ _ E) as (HU & (d & Ed & Hd) & HP & (r & Er & Hr & HO)).
  rewrite Ed, Er.
  set (u := nullish _ (g_user (captures z))).
  set (o := nullish [] (g_owner (captures z))).
  set (pn := match g_port (captures z) with
             | Some p => Number p
             | None => Int 22
             end).
  assert (Hu : is_user u = true).
  { subst u. destruct HU as [->|(u' & -> & Hu')]; [reflexivity|exact Hu']. }
  assert (Ho : (o = [] /\ no_owner_split r) \/ is_domain o = true).
  { subst o. destruct HO as [[-> Hs]|(o' & -> & Ho')]; [left|right]; auto. }
  assert (Hp : is_port (String_of_number pn) = true
               /\ Number (String_of_number pn) = pn).
  { subst pn. destruct HP as [->|(ds & -> & Hds)].
    - split; reflexivity.
    - destruct (Number_port ds Hds) as (n & En & _). rewrite En.
      apply (String_of_port ds n Hds En). }
  destruct Hp as [Hp1 Hp2].
  change (repoPath (mkLoc u (Some d) pn o (Some r)))
    with (canonical_text u d (String_of_number pn) o r).
  rewrite (sanitize_canonical u d (String_of_number pn) o r Hu Hd Hp1 Hr Ho).
  rewrite Hp2. reflexivity.
Qed.

Lemma sanitizeRepoPathSSH_repoPath_round_trip_witness :
  sanitizeRepoPathSSH
    (repoPath (mkLoc (str "git") (Some (str "github.com")) (Int 22) (str "owner")
                 (Some (str "repo"))))
  = Ok (mkLoc (str "git") (Some (str "github.com")) (Int 22) (str "owner")
          (Some (str "repo"))).
Proof.
  apply (sanitizeRepoPathSSH_repoPath_round_trip (str "git@github.com:owner/repo.git")).
  vm_compute. reflexivity.
Defined.

(* ================================================================== *)
(** ** Runs: how the effects compose *)

Lemma bind_throw {A B} (p : run A) (f : A -> run B) err :
  snd p = Throw err -> snd (bind p f) = Throw err.
Proof.
  destruct p as [t [a|e]]; simpl; intros H; [discriminate|].
  injection H as ->. reflexivity.
Qed.

Lemma bind_ok {A B} (p : run A) (f : A -> run B) a :
  snd p = Ok a -> bind p f = (fst p ++ fst (f a), snd (f a)).
Proof.
  destruct p as [t [a'|e]]; simpl; intros H; [|discriminate].
  injection H as ->. destruct (f a). reflexivity.
Qed.

Lemma bind_fail {A B} (p : run A) (f : A -> run B) err :
  snd p = Throw err -> bind p f = (fst p, Throw err).
Proof.
  destruct p as [t [a|e]]; simpl; intros H; [discriminate|].
  injection H as ->. reflexivity.
Qed.

Lemma guarded_shape (body : run unit) (line : error -> jsstring) :
  finally
    (try_catch body (fun error => emit (Write (line error)) ;; throw error))
    (emit EndStream)
  = (fst body
     ++ match snd body with
        | Ok _ => []
        | Throw err => [Write (line err)]
        end ++ [EndStream],
     snd body).
Proof.
  destruct body as [t [[]|err]]; cbn; [reflexivity|].
  rewrite <- List.app_assoc. reflexivity.
Qed.

Lemma valid_reference_split entity :
  valid_reference entity = true ->
  negb (truthy (customGitUrl entity)) || negb (truthy (customGitBranch entity))
  = false.
Proof.
  unfold valid_reference. destruct (truthy (customGitUrl entity)),
    (truthy (customGitBranch entity)); simpl; congruence.
Qed.

Lemma invalid_reference_split entity :
  valid_reference entity = false ->
  negb (truthy (customGitUrl entity)) || negb (truthy (customGitBranch entity))
  = true.
Proof.
  unfold valid_reference. destruct (truthy (customGitUrl entity)),
    (truthy (customGitBranch entity)); simpl; congruence.
Qed.

(** A valid reference: the log is opened, the guarded block runs, its
    failure is logged and raised again, and the log is closed. *)
Lemma cloneGitRepository_shape W entity logPath isCompose :
  valid_reference entity = true ->
  cloneGitRepository W entity logPath isCompose
  = (CreateWriteStream logPath
     :: fst (clone_steps W entity isCompose)
     ++ match snd (clone_steps W entity isCompose) with
        | Ok _ => []
        | Throw err => [Write (error_line err)]
        end ++ [EndStream],
     snd (clone_steps W entity isCompose)).
Proof.
  intros Hv. unfold cloneGitRepository.
  rewrite (valid_reference_split _ Hv).
  change (finally _ _)
    with (finally
            (try_catch (clone_steps W entity isCompose)
               (fun error => emit (Write (error_line error)) ;; throw error))
            (emit EndStream)).
  rewrite guarded_shape. reflexivity.
Qed.

(** The host-key step only runs the scan and, when it fails, reports on the
    console. *)
Lemma addHostToKnownHosts_events W url ev :
  In ev (fst (addHostToKnownHosts W url)) ->
  (exists c, ev = Exec c) \/ (exists t, ev = Console t).
Proof.
  unfold addHostToKnownHosts. destruct (sanitizeRepoPathSSH url) as [l|e];
    [|intros []].
  destruct (execAsync W _) as [[]|e]; cbn.
  - intros [<-|[]]. left. eauto.
  - intros [<-|[<-|[]]]; [left|right]; eauto.
Qed.

Lemma keyscan_step_events W entity ev :
  In ev (fst (keyscan_step W entity)) ->
  (exists c, ev = Exec c) \/ (exists t, ev = Console t).
Proof.
  unfold keyscan_step, when. destruct (negb _); [|intros []].
  apply addHostToKnownHosts_events.
Qed.

(** The guarded block, step by step: the first failing step ends it. *)
Lemma clone_steps_run W entity isCompose :
  clone_steps W entity isCompose =
  match snd (keyscan_step W entity) with
  | Throw err => (fst (keyscan_step W entity), Throw err)
  | Ok _ =>
      match recreateDirectory W (local_output_path W entity isCompose) with
      | Throw err =>
          (fst (keyscan_step W entity)
           ++ [RecreateDirectory (local_output_path W entity isCompose)],
           Throw err)
      | Ok _ =>
          match key_update_answer W entity with
          | Throw err => (events_before_spawn W entity isCompose, Throw err)
          | Ok _ =>
              (events_before_spawn W entity isCompose
               ++ Spawn (str "git") (local_spawn_args W entity isCompose)
                    (local_spawn_env W entity)
                  :: events_after_spawn W entity isCompose,
               snd (local_spawn_answer W entity isCompose))
          end
      end
  end.
Proof.
  unfold clone_steps, events_before_spawn, events_after_spawn, key_update_answer,
    key_update_events, spawn.
  fold (local_spawn_answer W entity isCompose).
  destruct (keyscan_step W entity) as [t1 [[]|e1]]; [|reflexivity].
  cbn [fst snd].
  destruct (recreateDirectory W _) as [[]|e2]; [|reflexivity].
  destruct (truthy (customGitSSHKeyId entity)).
  - destruct (updateSSHKeyById W _ _) as [[]|e3]; [|reflexivity].
    destruct (local_spawn_answer W entity isCompose) as [chunks [[]|e4]];
      cbn [bind emit call when ret fst snd];
      rewrite ?List.app_nil_r, <- ?List.app_assoc; reflexivity.
  - destruct (local_spawn_answer W entity isCompose) as [chunks [[]|e4]];
      cbn [bind emit call when ret fst snd];
      rewrite ?List.app_nil_r, <- ?List.app_assoc; reflexivity.
Qed.

Lemma events_before_spawn_kinds W entity isCompose ev :
  In ev (events_before_spawn W entity isCompose) ->
  is_spawn ev = false
  /\ ev <> EndStream
  /\ (forall t, ev = Write t ->
        t = cloning_line (tpl (customGitUrl entity))
              (local_output_path W entity isCompose)).
Proof.
  unfold events_before_spawn, key_update_events. intros H.
  apply in_app_or in H. destruct H as [H|H].
  - apply keyscan_step_events in H. destruct H as [[c ->]|[t ->]];
      repeat split; try discriminate.
  - apply in_app_or in H. destruct H as [[<-|[<-|[]]]|H].
    + repeat split; discriminate.
    + repeat split; try discriminate. intros t [= <-]. reflexivity.
    + destruct (truthy (customGitSSHKeyId entity)); [|destruct H].
      destruct H as [<-|[]]. repeat split; discriminate.
Qed.

Lemma events_after_spawn_kinds W entity isCompose ev :
  In ev (events_after_spawn W entity isCompose) ->
  exists t, ev = Write t
            /\ (In t (fst (local_spawn_answer W entity isCompose))
                \/ (t = cloned_line (tpl (customGitUrl entity))
                    /\ snd (local_spawn_answer W entity isCompose) = Ok tt)).
Proof.
  unfold events_after_spawn. intros H. apply in_app_or in H. destruct H as [H|H].
  - apply in_flat_map in H. destruct H as (t & Ht & [<-|[]]). eauto.
  - destruct (snd (local_spawn_answer W entity isCompose)) as [[]|e];
      [|destruct H].
    destruct H as [<-|[]]. eauto.
Qed.

(* ================================================================== *)
(** ** The local executor: failures, logging, closing *)

(** C8: in every run of [cloneGitRepository] that passes validation the log
    sink is closed at the end; when the run fails, the failure line with the
    error is in the log and that error is what the caller gets; and a failure
    of the host-key scan, of the directory reset or of the clone child is
    such a failure of the run. *)
Theorem cloneGitRepository_failure_logged_and_closed
    (W : World) (entity : Entity) (logPath : jsstring) (isCompose : bool) :
  valid_reference entity = true ->
  let R := cloneGitRepository W entity logPath isCompose in
  (exists pre, fst R = pre ++ [EndStream])
  /\ (forall err, snd R = Throw err -> In (Write (error_line err)) (fst R))
  /\ (forall err, snd (keyscan_step W entity) = Throw err -> snd R = Throw err)
  /\ (forall err,
        snd (keyscan_step W entity) = Ok tt ->
        recreateDirectory W (local_output_path W entity isCompose) = Throw err ->
        snd R = Throw err)
  /\ (forall err,
        snd (keyscan_step W entity) = Ok tt ->
        recreateDirectory W (local_output_path W entity isCompose) = Ok tt ->
        key_update_answer W entity = Ok tt ->
        snd (local_spawn_answer W entity isCompose) = Throw err ->
        snd R = Throw err).
Proof.
  intros Hv R. subst R. rewrite (cloneGitRepository_shape _ _ _ _ Hv).
  cbn [fst snd]. split; [|split; [|split; [|split]]].
  - eexists (_ :: _ ++ _). cbn [app]. rewrite <- List.app_assoc. reflexivity.
  - intros err ->. right. apply in_or_app. right. left. reflexivity.
  - intros err H. rewrite clone_steps_run, H. reflexivity.
  - intros err H1 H2. rewrite clone_steps_run, H1, H2. reflexivity.
  - intros err H1 H2 H3 H4. rewrite clone_steps_run, H1, H2, H3. exact H4.
Qed.

Lemma cloneGitRepository_failure_logged_and_closed_witness :
  let R := cloneGitRepository world_clone_fails ssh_entity sample_log false in
  (exists pre, fst R = pre ++ [EndStream])
  /\ snd R = Throw clone_exit_128
  /\ In (Write (error_line clone_exit_128)) (fst R).
Proof.
  destruct (cloneGitRepository_failure_logged_and_closed
              world_clone_fails ssh_entity sample_log false eq_refl)
    as (Hclosed & Hlogged & _ & _ & Hchild).
  assert (Hfail : snd (cloneGitRepository world_clone_fails ssh_entity sample_log false)
                  = Throw clone_exit_128).
  { apply Hchild; vm_compute; reflexivity. }
  split; [exact Hclosed|]. split; [exact Hfail|]. apply Hlogged. exact Hfail.
Defined.

(** C10: when [cloneGitRepository] spawns the clone child, the check-marked
    line with the repository URL and the destination path is already in the
    log, and it is the only line written before the spawn; after the spawn
    the log only gets the child's output and the success or failure line.
    So when the child fails, the log holds the check-marked line and the
    failure line. *)
Theorem cloneGitRepository_announces_before_spawn
    (W : World) (entity : Entity) (logPath : jsstring) (isCompose : bool)
    (command : jsstring) (args : list jsstring) (env : environment) :
  valid_reference entity = true ->
  let R := cloneGitRepository W entity logPath isCompose in
  let announce := cloning_line (tpl (customGitUrl entity))
                    (local_output_path W entity isCompose) in
  In (Spawn command args env) (fst R) ->
  exists pre post,
    fst R = pre ++ Spawn command args env :: post
    /\ In (Write announce) pre
    /\ (forall t, In (Write t) pre -> t = announce)
    /\ (forall t, In (Write t) post ->
          In t (fst (local_spawn_answer W entity isCompose))
          \/ t = cloned_line (tpl (customGitUrl entity))
          \/ exists err, t = error_line err)
    /\ (forall err,
          snd (local_spawn_answer W entity isCompose) = Throw err ->
          snd R = Throw err /\ In (Write (error_line err)) post).
Proof.
  intros Hv R announce. subst R. rewrite (cloneGitRepository_shape _ _ _ _ Hv).
  cbn [fst snd]. rewrite clone_steps_run.
  assert (Hks : forall ev, In ev (fst (keyscan_step W entity)) -> is_spawn ev = false).
  { intros ev H. apply keyscan_step_events in H.
    destruct H as [[c ->]|[t ->]]; reflexivity. }
  assert (Hno : forall (l : list event) (tail : list event),
            (forall ev, In ev l -> is_spawn ev = false) ->
            (forall ev, In ev tail -> is_spawn ev = false) ->
            In (Spawn command args env)
               (CreateWriteStream logPath :: l ++ tail) -> False).
  { intros l tail Hl Ht [H|H]; [discriminate|].
    apply in_app_or in H. destruct H as [H|H];
      [apply Hl in H|apply Ht in H]; discriminate. }
  destruct (snd (keyscan_step W entity)) as [[]|e1] eqn:E1.
  2:{ cbn [fst snd]. intros H. exfalso. revert H. apply Hno; auto.
      intros ev [<-|[<-|[]]]; reflexivity. }
  destruct (recreateDirectory W _) as [[]|e2] eqn:E2.
  2:{ cbn [fst snd]. intros H. exfalso. revert H. apply Hno.
      - intros ev H. apply in_app_or in H. destruct H as [H|[<-|[]]]; auto.
      - intros ev [<-|[<-|[]]]; reflexivity. }
  destruct (key_update_answer W entity) as [[]|e3] eqn:E3.
  2:{ cbn [fst snd]. intros H. exfalso. revert H. apply Hno.
      - intros ev H. apply events_before_spawn_kinds in H. tauto.
      - intros ev [<-|[<-|[]]]; reflexivity. }
  cbn [fst snd]. intros H.
  set (tail := match snd (local_spawn_answer W entity isCompose) with
               | Ok _ => []
               | Throw err => [Write (error_line err)]
               end ++ [EndStream]) in *.
  assert (Htail : forall ev, In ev tail -> is_spawn ev = false).
  { subst tail. intros ev Hin. apply in_app_or in Hin.
    destruct Hin as [Hin|[<-|[]]]; [|reflexivity].
    destruct (snd (local_spawn_answer W entity isCompose)); [destruct Hin|].
    destruct Hin as [<-|[]]. reflexivity. }
  assert (Heq : Spawn command args env
                = Spawn (str "git") (local_spawn_args W entity isCompose)
                    (local_spawn_env W entity)).
  { destruct H as [H|H]; [discriminate|].
    rewrite <- List.app_assoc in H. apply in_app_or in H. destruct H as [H|H].
    - apply events_before_spawn_kinds in H. destruct H as [H _]. discriminate.
    - destruct H as [H|H]; [symmetry; exact H|].
      apply in_app_or in H. destruct H as [H|H].
      + apply events_after_spawn_kinds in H. destruct H as (t & Ht & _).
        discriminate Ht.
      + apply Htail in H. discriminate. }
  rewrite Heq.
  exists (CreateWriteStream logPath :: events_before_spawn W entity isCompose),
         (events_after_spawn W entity isCompose ++ tail).
  split; [|split; [|split; [|split]]].
  - cbn [app]. rewrite <- !List.app_assoc. reflexivity.
  - right. unfold events_before_spawn. apply in_or_app. right.
    right. left. reflexivity.
  - intros t [Ht|Ht]; [discriminate|].
    apply events_before_spawn_kinds in Ht. destruct Ht as (_ & _ & Ht).
    apply Ht. reflexivity.
  - intros t Ht. apply in_app_or in Ht. destruct Ht as [Ht|Ht].
    + apply events_after_spawn_kinds in Ht.
      destruct Ht as (t' & [= <-] & [Hc|[Hc _]]); auto.
    + subst tail. apply in_app_or in Ht. destruct Ht as [Ht|[Ht|[]]];
        [|discriminate].
      destruct (snd (local_spawn_answer W entity isCompose)); [destruct Ht|].
      destruct Ht as [[= <-]|[]]. right. right. eauto.
  - intros err Herr. split; [exact Herr|].
    apply in_or_app. right. subst tail. rewrite Herr. left. reflexivity.
Qed.

Lemma cloneGitRepository_announces_before_spawn_witness :
  let W := world_clone_fails in
  let R := cloneGitRepository W ssh_entity sample_log false in
  exists pre post,
    fst R = pre ++ Spawn (str "git") (local_spawn_args W ssh_entity false)
                     (local_spawn_env W ssh_entity) :: post
    /\ In (Write (cloning_line (str "git@github.com:owner/repo.git")
                    (str "/etc/dokploy/applications/app/code"))) pre
    /\ In (Write (error_line clone_exit_128)) post.
Proof.
  intros W R.
  destruct (cloneGitRepository_announces_before_spawn W ssh_entity sample_log false
              (str "git") (local_spawn_args W ssh_entity false)
              (local_spawn_env W ssh_entity) eq_refl)
    as (pre & post & Hsplit & Hann & _ & _ & Hfail).
  - vm_compute. do 4 right. left. reflexivity.
  - exists pre, post. split; [exact Hsplit|]. split; [exact Hann|].
    apply (Hfail clone_exit_128). reflexivity.
Defined.

(** C4, as stated, fails: in a world where everything but the credential
    bookkeeping succeeds, the rejection of [updateSSHKeyById] is what the
    caller of [cloneGitRepository] gets, and the child is never spawned;
    with the bookkeeping succeeding the same clone succeeds. *)
Lemma key_update_error_fails_the_clone :
  updateSSHKeyById world_key_fails (str "key1") (now_iso world_key_fails)
  = Throw key_store_down
  /\ snd (cloneGitRepository world_key_fails ssh_entity_with_key sample_log false)
     = Throw key_store_down
  /\ spawned_args
       (fst (cloneGitRepository world_key_fails ssh_entity_with_key sample_log false))
     = None
  /\ snd (cloneGitRepository world_ok ssh_entity_with_key sample_log false) = Ok tt.
Proof. repeat split; vm_compute; reflexivity. Qed.

(** C4, amended: the notification is awaited inside the guarded block,
    before the spawn.  When it rejects, the clone child is not spawned, the
    failure line with that error is written to the log, the log is closed
    and the error is raised to the caller. *)
Theorem cloneGitRepository_key_update_failure
    (W : World) (entity : Entity) (logPath : jsstring) (isCompose : bool)
    (err : error) :
  valid_reference entity = true ->
  snd (keyscan_step W entity) = Ok tt ->
  recreateDirectory W (local_output_path W entity isCompose) = Ok tt ->
  truthy (customGitSSHKeyId entity) = true ->
  updateSSHKeyById W (tpl (customGitSSHKeyId entity)) (now_iso W) = Throw err ->
  let R := cloneGitRepository W entity logPath isCompose in
  snd R = Throw err
  /\ In (Write (error_line err)) (fst R)
  /\ (forall ev, In ev (fst R) -> is_spawn ev = false)
  /\ (exists pre, fst R = pre ++ [EndStream]).
Proof.
  intros Hv H1 H2 H3 H4 R. subst R.
  rewrite (cloneGitRepository_shape _ _ _ _ Hv), clone_steps_run, H1, H2.
  unfold key_update_answer. rewrite H3, H4. cbn [fst snd].
  split; [reflexivity|]. split; [|split].
  - right. apply in_or_app. right. left. reflexivity.
  - intros ev [<-|H]; [reflexivity|].
    apply in_app_or in H. destruct H as [H|[<-|[<-|[]]]]; try reflexivity.
    apply events_before_spawn_kinds in H. tauto.
  - eexists (_ :: _ ++ [_]). cbn [app]. rewrite <- List.app_assoc. reflexivity.
Qed.

Lemma cloneGitRepository_key_update_failure_witness :
  let R := cloneGitRepository world_key_fails ssh_entity_with_key sample_log false in
  snd R = Throw key_store_down
  /\ In (Write (error_line key_store_down)) (fst R)
  /\ (forall ev, In ev (fst R) -> is_spawn ev = false)
  /\ (exists pre, fst R = pre ++ [EndStream]).
Proof.
  apply (cloneGitRepository_key_update_failure world_key_fails ssh_entity_with_key
           sample_log false key_store_down); vm_compute; reflexivity.
Defined.

(* ================================================================== *)
(** ** Validation in the four clone operations *)

Lemma cloneGitRepository_invalid W entity logPath isCompose :
  valid_reference entity = false ->
  cloneGitRepository W entity logPath isCompose = ([], Throw repository_not_found).
Proof.
  intros H. unfold cloneGitRepository. rewrite (invalid_reference_split _ H).
  reflexivity.
Qed.

Lemma cloneGitRawRepository_invalid W entity :
  valid_reference entity = false ->
  cloneGitRawRepository W entity = ([], Throw repository_not_found).
Proof.
  intros H. unfold cloneGitRawRepository. rewrite (invalid_reference_split _ H).
  reflexivity.
Qed.

Lemma getCustomGitCloneCommand_invalid W entity logPath isCompose :
  valid_reference entity = false ->
  getCustomGitCloneCommand W entity logPath isCompose
  = ([ExecRemote (serverId entity) (missing_repository_script logPath)],
     match execAsyncRemote W (serverId entity) (missing_repository_script logPath) with
     | Ok _ => Throw repository_not_found
     | Throw err => Throw err
     end).
Proof.
  intros H. unfold getCustomGitCloneCommand. rewrite (invalid_reference_split _ H).
  unfold call, bind, throw.
  destruct (execAsyncRemote W _ _) as [[]|err]; reflexivity.
Qed.

(** C2: [cloneRawGitRepositoryRemote] does not check the branch.  With a url
    and a server but no branch it raises no validation error: it sends the
    remote host a script that clones with [--branch null], and returns. *)
Theorem cloneRawGitRepositoryRemote_accepts_missing_branch :
  valid_reference entity_without_branch = false
  /\ exists script,
       cloneRawGitRepositoryRemote world_ok entity_without_branch
       = ([ExecRemote (Str (str "srv1")) script], Ok tt)
       /\ shell_words
            (raw_remote_clone_block (str "null")
               (str "git@github.com:owner/repo.git")
               (str "/etc/dokploy/compose/app/code"))
          = [str "if"; str "!"; str "git"; str "clone"; str "--branch";
             str "null"; str "--depth"; str "1"; str "--progress";
             str "git@github.com:owner/repo.git";
             str "/etc/dokploy/compose/app/code"; str ";"; str "then";
             str "echo"; dq ++ str "[ERROR]"; str "Fail"; str "to"; str "clone";
             str "the"; str "repository"; dq ++ str ";"; str "exit"; str "1;";
             str "fi"]
       /\ exists before,
            script = before ++ nl
                     ++ raw_remote_clone_block (str "null")
                          (str "git@github.com:owner/repo.git")
                          (str "/etc/dokploy/compose/app/code").
Proof.
  split; [reflexivity|]. eexists. split; [vm_compute; reflexivity|].
  split; [vm_compute; reflexivity|].
  exists (str "ssh-keyscan -p 22 github.com >> /etc/dokploy/ssh/known_hosts;" ++ nl
          ++ str "rm -rf /etc/dokploy/compose/app/code;" ++ nl
          ++ str "mkdir -p /etc/dokploy/compose/app/code;").
  vm_compute. reflexivity.
Qed.

(* ================================================================== *)
(** ** The host-key scan and the transport *)

(** C3: [cloneGitRawRepository] runs the host-key scan without looking at
    the transport: for an [https://] url it still runs [ssh-keyscan]. *)
Theorem cloneGitRawRepository_scans_https_host :
  isHttpOrHttps (tpl (customGitUrl https_entity)) = true
  /\ fst (cloneGitRawRepository world_ok https_entity)
     = [Exec (str "ssh-keyscan -p 22 github.com >> /etc/dokploy/ssh/known_hosts");
        RecreateDirectory (str "/etc/dokploy/compose/app/code");
        Spawn (str "git")
          (raw_clone_args (str "main") (str "https://github.com/owner/repo.git")
             (str "/etc/dokploy/compose/app/code"))
          [(str "PATH", str "/usr/bin")]].
Proof. split; vm_compute; reflexivity. Qed.

(* ================================================================== *)
(** ** The two clone command lines *)

(** C1: the local executor passes [--recurse-submodules] to [git clone]; the
    script of [getCustomGitCloneCommand] for the same reference does not.
    The other options are the same. *)
Theorem clone_options_local_and_remote_differ :
  option_map long_options
    (spawned_args (fst (cloneGitRepository world_ok ssh_entity sample_log false)))
  = Some [str "--branch"; str "--depth"; str "--recurse-submodules";
          str "--progress"]
  /\ exists script,
       getCustomGitCloneCommand world_ok ssh_entity sample_log false
       = ([], Ok script)
       /\ long_options (shell_words script)
          = [str "--branch"; str "--depth"; str "--progress"].
Proof.
  split; [vm_compute; reflexivity|].
  eexists. split; vm_compute; reflexivity.
Qed.

(* ================================================================== *)
(** ** A missing reference in the remote builder *)

(** C7: when the remote host runs the error script as the claim says (it
    exits with status 1) and the remote-execution collaborator keeps its
    contract (a non-zero exit status is a failure), the awaited call rejects:
    the caller of [getCustomGitCloneCommand] gets that rejection, and the
    validation error that follows the call in the source is not raised. *)
Theorem getCustomGitCloneCommand_validation_error_masked
    (W : World) (entity : Entity) (logPath : jsstring) (isCompose : bool)
    (sh : jsstring -> N) :
  valid_reference entity = false ->
  execAsyncRemote W = runOnRemoteHost sh ->
  sh (missing_repository_script logPath) = 1 ->
  getCustomGitCloneCommand W entity logPath isCompose
  = ([ExecRemote (serverId entity) (missing_repository_script logPath)],
     Throw (Rejected (str "Command exited with code 1")))
  /\ snd (getCustomGitCloneCommand W entity logPath isCompose)
     <> Throw repository_not_found.
Proof.
  intros Hv HW Hsh.
  rewrite (getCustomGitCloneCommand_invalid _ _ _ _ Hv), HW.
  unfold runOnRemoteHost. rewrite Hsh. cbn [N.eqb Pos.eqb fst snd].
  split; [reflexivity|]. discriminate.
Qed.

Lemma getCustomGitCloneCommand_validation_error_masked_witness :
  getCustomGitCloneCommand (world_remote (fun _ => 1)) entity_without_url
    sample_log false
  = ([ExecRemote (Str (str "srv1")) (missing_repository_script sample_log)],
     Throw (Rejected (str "Command exited with code 1")))
  /\ snd (getCustomGitCloneCommand (world_remote (fun _ => 1)) entity_without_url
            sample_log false)
     <> Throw repository_not_found.
Proof.
  apply (getCustomGitCloneCommand_validation_error_masked
           (world_remote (fun _ => 1)) entity_without_url sample_log false
           (fun _ => 1)); reflexivity.
Defined.
